(** * KD-tree range search and planar projection (NASP-Project)

    A shallow embedding of [src/KdTree.ts] (tree construction, squared
    distance, range search) and of the projection of
    [src/scripts/benchmark.js], with the properties the specification states
    about them.

    Numbers.  The JavaScript code computes on IEEE-754 doubles.  The tree code
    is embedded over exact rationals [Q]: additions, subtractions,
    multiplications and comparisons are the exact ones, so rounding, overflow
    and NaN are outside the model.  The projection, which needs [log] and
    [tan], is embedded over the real numbers of the Standard Library. *)

From Stdlib Require Import List Arith Lia Bool.
From Stdlib Require Import QArith Qabs Qminmax Qreals.
From Stdlib Require Import Reals Psatz.
From Stdlib Require Import Permutation Sorted.
Import ListNotations.

Module KdTree.

Local Open Scope Q_scope.

(** ** Data model *)

(** A point is a JavaScript [number[]]: the list of its coordinates. *)
Definition point : Type := list Q.

(** [p[i]].  An index out of range reads [undefined] in JavaScript, which
    arithmetic turns into NaN; the model reads [0] there, and the theorems
    about coordinates assume points of the right dimension. *)
Definition coord (p : point) (i : nat) : Q := nth i p 0.

(** [class KDNode], with [null] for an absent tree: [KDNode | null]. *)
Inductive KDNode : Type :=
| Null : KDNode
| Node (point_ : point) (axis : nat) (left right : KDNode) : KDNode.

(** ** [Array.prototype.sort]

    The sort of ECMAScript is stable and, for a consistent comparator,
    returns the elements in non-decreasing order of the comparator: [a] stays
    before [b] unless [compareFn a b > 0].  A stable sorted permutation is
    unique, so the algorithm is immaterial; insertion is used here. *)
Section Sort.
Variable compareFn : point -> point -> Q.

Fixpoint insert (x : point) (l : list point) : list point :=
  match l with
  | [] => [x]
  | y :: l' =>
      if Qle_bool (compareFn x y) 0 then x :: y :: l' else y :: insert x l'
  end.

Fixpoint sort (l : list point) : list point :=
  match l with
  | [] => []
  | x :: l' => insert x (sort l')
  end.
End Sort.

(** The comparator of line 20: [(a, b) => a[axis] - b[axis]]. *)
Definition byAxis (axis : nat) (a b : point) : Q := coord a axis - coord b axis.

(** [sorted.slice(i, j)] and [sorted.slice(i)]. *)
Definition slice (l : list point) (i j : nat) : list point :=
  firstn (j - i) (skipn i l).
Definition sliceFrom (l : list point) (i : nat) : list point := skipn i l.

(** ** [buildKDTree]

    The recursion of [buildKDTree] is on slices of the sorted array, which is
    not structural; [buildKDTree_fuel] is the function with a bound on the
    depth of the recursion, [None] meaning that the bound was reached. *)
Fixpoint buildKDTree_fuel (fuel : nat) (points : list point) (depth : nat)
  : option KDNode :=
  match fuel with
  | O => None
  | S fuel' =>
      match points with
      | [] => Some Null
      | p0 :: _ =>
          let k := length p0 in
          let axis := (depth mod k)%nat in
          let sorted := sort (byAxis axis) points in
          let mid := (length sorted / 2)%nat in
          match buildKDTree_fuel fuel' (slice sorted 0 mid) (depth + 1),
                buildKDTree_fuel fuel' (sliceFrom sorted (mid + 1)) (depth + 1)
          with
          | Some l, Some r => Some (Node (nth mid sorted []) axis l r)
          | _, _ => None
          end
      end
  end.

(** [buildKDTree(points, depth)]: a list of [n] points never needs more than
    [n + 1] nested calls (theorem [buildKDTree_fuel_enough]). *)
Definition buildKDTree (points : list point) (depth : nat) : KDNode :=
  match buildKDTree_fuel (S (length points)) points depth with
  | Some t => t
  | None => Null
  end.

(** ** [distanceSquared] *)

(** [arr.reduce((acc, v, i) => f(acc, v, i), init)], the index starting
    at [i]. *)
Fixpoint reduce {A B : Type} (f : B -> A -> nat -> B) (l : list A) (i : nat)
  (acc : B) : B :=
  match l with
  | [] => acc
  | v :: l' => reduce f l' (S i) (f acc v i)
  end.

Definition distanceSquared (p1 p2 : point) : Q :=
  reduce (fun s v i => let d := v - coord p2 i in s + d * d) p1 0%nat 0.

(** ** [rangeSearch] *)

(** [q < 0]. *)
Definition ltb0 (q : Q) : bool := negb (Qle_bool 0 q).

(** [results] is the array the calls share and push to; it is threaded
    through the calls, [results.push(root)] appending at the end.  The
    function is called with [depth = 0] and [results = []] by default. *)
Fixpoint rangeSearch (root : KDNode) (target : point) (radiusMeters : Q)
  (depth : nat) (results : list KDNode) : list KDNode :=
  match root with
  | Null => results
  | Node p _ l r =>
      let k := length target in
      let axis := (depth mod k)%nat in
      let r2 := radiusMeters * radiusMeters in
      let results1 :=
        if Qle_bool (distanceSquared target p) r2 then results ++ [root]
        else results in
      let diff := coord target axis - coord p axis in
      let results2 :=
        if ltb0 diff then rangeSearch l target radiusMeters (depth + 1) results1
        else rangeSearch r target radiusMeters (depth + 1) results1 in
      if Qle_bool (Qabs diff) radiusMeters then
        if ltb0 diff then rangeSearch r target radiusMeters (depth + 1) results2
        else rangeSearch l target radiusMeters (depth + 1) results2
      else results2
  end.

(** [rangeSearch] with a bound on the depth of the recursion, [None] meaning
    that the bound was reached. *)
Fixpoint rangeSearch_fuel (fuel : nat) (root : KDNode) (target : point)
  (radiusMeters : Q) (depth : nat) (results : list KDNode)
  : option (list KDNode) :=
  match fuel with
  | O => None
  | S fuel' =>
      match root with
      | Null => Some results
      | Node p _ l r =>
          let k := length target in
          let axis := (depth mod k)%nat in
          let r2 := radiusMeters * radiusMeters in
          let results1 :=
            if Qle_bool (distanceSquared target p) r2 then results ++ [root]
            else results in
          let diff := coord target axis - coord p axis in
          match
            (if ltb0 diff
             then rangeSearch_fuel fuel' l target radiusMeters (depth + 1) results1
             else rangeSearch_fuel fuel' r target radiusMeters (depth + 1) results1)
          with
          | None => None
          | Some results2 =>
              if Qle_bool (Qabs diff) radiusMeters then
                if ltb0 diff
                then rangeSearch_fuel fuel' r target radiusMeters (depth + 1) results2
                else rangeSearch_fuel fuel' l target radiusMeters (depth + 1) results2
              else Some results2
          end
      end
  end.

(** ** Vocabulary of the specification *)

(** The point a node of the result carries ([n.point]). *)
Definition nodePoint (n : KDNode) : point :=
  match n with
  | Null => []
  | Node p _ _ _ => p
  end.

(** The nodes of a tree, the root before its subtrees, and their points. *)
Fixpoint treeNodes (t : KDNode) : list KDNode :=
  match t with
  | Null => []
  | Node _ _ l r => t :: treeNodes l ++ treeNodes r
  end.

Definition treePoints (t : KDNode) : list point := map nodePoint (treeNodes t).

Fixpoint height (t : KDNode) : nat :=
  match t with
  | Null => 0%nat
  | Node _ _ l r => S (Nat.max (height l) (height r))
  end.

(** Points of [k] coordinates; planar points have two. *)
Definition hasDim (k : nat) (p : point) : Prop := length p = k.
Definition planar (p : point) : Prop := hasDim 2 p.

(** Order of two points along an axis. *)
Definition leAxis (axis : nat) (a b : point) : Prop :=
  coord a axis <= coord b axis.

(** The partition invariant of the data model: at depth [depth] the node
    splits on [depth mod k], no point of the left subtree is above the node's
    point on that axis and no point of the right subtree is below it; and so
    for both subtrees, one level down. *)
Fixpoint kdInvariant (k depth : nat) (t : KDNode) : Prop :=
  match t with
  | Null => True
  | Node p axis l r =>
      axis = (depth mod k)%nat /\
      Forall (fun q => leAxis axis q p) (treePoints l) /\
      Forall (fun q => leAxis axis p q) (treePoints r) /\
      kdInvariant k (S depth) l /\ kdInvariant k (S depth) r
  end.

(** The brute-force check: the Euclidean distance from [target] to [p] is at
    most [radius].  The distance is the square root of [distanceSquared], so
    [distance <= radius] says that [radius] is not negative and that
    [distanceSquared <= radius * radius] (lemma [sqrt_le_iff_squares]). *)
Definition withinRadius (target : point) (radius : Q) (p : point) : bool :=
  Qle_bool 0 radius && Qle_bool (distanceSquared target p) (radius * radius).

Definition bruteForce (points : list point) (target : point) (radius : Q)
  : list point :=
  filter (withinRadius target radius) points.

(** The test of line 48 on its own: squared distance against squared
    radius. *)
Definition matches (target : point) (radiusMeters : Q) (n : KDNode) : bool :=
  Qle_bool (distanceSquared target (nodePoint n)) (radiusMeters * radiusMeters).

(** The nodes [rangeSearch] reaches by its first recursive call only: from
    the root, the child on the side of the target. *)
Fixpoint nearPath (root : KDNode) (target : point) (depth : nat)
  : list KDNode :=
  match root with
  | Null => []
  | Node p _ l r =>
      let axis := (depth mod (length target))%nat in
      let diff := coord target axis - coord p axis in
      root :: (if ltb0 diff then nearPath l target (depth + 1)
               else nearPath r target (depth + 1))
  end.

(** The points whose coordinate on [axis] is [v]: the ties of a sort by that
    axis. *)
Definition keyIs (axis : nat) (v : Q) (p : point) : bool :=
  Qeq_bool (coord p axis) v.

(** The two medians of a sorted sequence of [count] elements, as indices:
    they differ when [count] is even. *)
Definition lowerMedianIndex (count : nat) : nat := ((count - 1) / 2)%nat.
Definition upperMedianIndex (count : nat) : nat := (count / 2)%nat.

(** ** Vocabulary of the proofs *)

(** The sum [distanceSquared] accumulates, from index [i] on. *)
Fixpoint sumSquares (l : list Q) (i : nat) (p2 : point) : Q :=
  match l with
  | [] => 0
  | v :: l' => (v - coord p2 i) * (v - coord p2 i) + sumSquares l' (S i) p2
  end.



End KdTree.

Import KdTree.

(** * [buildKDTree] over a store of arrays

    Arrays are objects: [Array.prototype.sort] sorts the array it is called
    on in place, while the spread [[...points]] and [slice] allocate new
    arrays.  The store maps the address of an array to its elements; a
    computation takes the store and returns a value and the new store, or
    [None] when it reads an address that holds no array or reaches its bound
    on the depth of the recursion. *)
Module Store.

Definition ref : Type := nat.
Definition store : Type := list (list point).
Definition M (A : Type) : Type := store -> option (A * store).

Definition ret {A : Type} (x : A) : M A := fun h => Some (x, h).

Definition bind {A B : Type} (m : M A) (k : A -> M B) : M B :=
  fun h => match m h with
           | Some (x, h') => k x h'
           | None => None
           end.

Notation "x <- m ;; k" := (bind m (fun x => k))
  (at level 61, m at next level, right associativity).

Definition fail {A : Type} : M A := fun _ => None.

(** The elements of the array at an address. *)
Definition load (a : ref) : M (list point) :=
  fun h => match nth_error h a with
           | Some arr => Some (arr, h)
           | None => None
           end.

(** A new array, at the next free address. *)
Definition alloc (arr : list point) : M ref :=
  fun h => Some (length h, h ++ [arr]).

(** Overwriting the elements of the array at an address. *)
Definition write (a : ref) (arr : list point) : M unit :=
  fun h => if (a <? length h)%nat
           then Some (tt, firstn a h ++ arr :: skipn (S a) h)
           else None.

(** [[...a]]: a new array with the elements of [a]. *)
Definition spread (a : ref) : M ref :=
  arr <- load a ;; alloc arr.

(** [a.sort(compareFn)]: sorts [a] in place and returns [a]. *)
Definition sortInPlace (compareFn : point -> point -> Q) (a : ref) : M ref :=
  arr <- load a ;;
  _ <- write a (sort compareFn arr) ;;
  ret a.

(** [a.slice(i, j)] and [a.slice(i)]: new arrays. *)
Definition sliceOf (a : ref) (i j : nat) : M ref :=
  arr <- load a ;; alloc (slice arr i j).
Definition sliceFromOf (a : ref) (i : nat) : M ref :=
  arr <- load a ;; alloc (sliceFrom arr i).

(** [buildKDTree] (lines 16 to 26) on the address of the array of points.
    The tree itself is returned as a value: its nodes are new objects that
    nothing else refers to. *)
Fixpoint buildKDTree_store (fuel : nat) (points : ref) (depth : nat)
  : M KDNode :=
  match fuel with
  | O => fail
  | S fuel' =>
      arr <- load points ;;
      match arr with
      | [] => ret Null
      | p0 :: _ =>
          let k := length p0 in
          let axis := (depth mod k)%nat in
          copy <- spread points ;;
          sorted <- sortInPlace (byAxis axis) copy ;;
          elems <- load sorted ;;
          let mid := (length elems / 2)%nat in
          let p := nth mid elems [] in
          lefts <- sliceOf sorted 0 mid ;;
          l <- buildKDTree_store fuel' lefts (depth + 1) ;;
          rights <- sliceFromOf sorted (mid + 1) ;;
          r <- buildKDTree_store fuel' rights (depth + 1) ;;
          ret (Node p axis l r)
      end
  end.

(** The same function without the copy of line 20, [points.sort(...)], for
    comparison only: it sorts the caller's array. *)
Definition sortCallerArray (points : ref) (axis : nat) : M ref :=
  sortInPlace (byAxis axis) points.

End Store.

(** * The projection, its definitions *)
Module Projection.

Local Open Scope R_scope.

(** [const R = 6378137] (line 11); the name [R] is the type of the reals
    here. *)
Definition R_earth : R := 6378137.

(** [lonLatToMercator([lon, lat])] (lines 12 to 18); [Math.log] is the
    natural logarithm. *)
Definition lonLatToMercator (lonlat : R * R) : R * R :=
  let '(lon, lat) := lonlat in
  let lam := (lon * PI) / 180 in
  let phi := (lat * PI) / 180 in
  let x := R_earth * lam in
  let y := R_earth * ln (tan (PI / 4 + phi / 2)) in
  (x, y).

(** The specification's words: an angle in degrees, in radians. *)
Definition radians (degrees : R) : R := degrees * (PI / 180).

(** The specification's words: [(x, y) = (R lam, R log(tan(pi/4 + phi/2)))]
    for the longitude [lam] and the latitude [phi] in radians and one
    radius [R]. *)
Definition projectSpec (radius lon lat : R) : R * R :=
  (radius * radians lon, radius * ln (tan (PI / 4 + radians lat / 2))).

End Projection.

(** * The traced searches of the components, their definitions

    [src/app/components/KDTreeSearch.tsx] and
    [src/app/components/CompareMaps.tsx] carry their own search, which
    records every visit; [src/app/api/benchmark/route.ts] counts the
    visits. *)
Module Trace.

Local Open Scope Q_scope.

(** [distanceSq] (KDTreeSearch.tsx, lines 34 to 41; the same loop is
    [distanceSquared] of [scripts/benchmark.js]): the loop
    [for (let i = 0; i < a.length; i++)], with [todo] the iterations that
    remain, [a.length - i]. *)
Fixpoint distanceSq_loop (a b : point) (todo i : nat) (s : Q) : Q :=
  match todo with
  | O => s
  | S todo' =>
      let d := coord a i - coord b i in
      distanceSq_loop a b todo' (S i) (s + d * d)
  end.

Definition distanceSq (a b : point) : Q :=
  distanceSq_loop a b (length a) 0%nat 0.

(** [type Step]. *)
Record Step : Type := mkStep {
  id : nat;
  stepPoint : point;
  stepAxis : nat;
  diff : Q;
  within : bool;
  branched : bool
}.

(** The variables the closure [dfs] of [rangeSearchTrace] shares: the arrays
    [steps] and [results] and the counter [visitId]. *)
Record TraceState : Type := mkTraceState {
  steps : list Step;
  results : list KDNode;
  visitId : nat
}.

(** [steps[idx].branched = b]: the step at [idx] with its flag overwritten.
    [dfs] only writes at the index of a step it has pushed; an index out of
    range, a TypeError in JavaScript, leaves the model's array as it is. *)
Fixpoint setBranched (idx : nat) (b : bool) (l : list Step) : list Step :=
  match l, idx with
  | [], _ => []
  | s :: l', O =>
      mkStep (id s) (stepPoint s) (stepAxis s) (diff s) (within s) b :: l'
  | s :: l', S idx' => s :: setBranched idx' b l'
  end.

(** [dfs] of [rangeSearchTrace] (KDTreeSearch.tsx, lines 53 to 80). *)
Fixpoint dfs (target : point) (projectedRadius r2 : Q) (node : KDNode)
  (depth : nat) (st : TraceState) : TraceState :=
  match node with
  | Null => st
  | Node p _ l r =>
      let k := length target in
      let axis := (depth mod k)%nat in
      let diff := coord target axis - coord p axis in
      let within := Qle_bool (distanceSq target p) r2 in
      let id := S (visitId st) in
      let idx := length (steps st) in
      let st1 :=
        mkTraceState
          (steps st ++ [mkStep id p axis diff within false])
          (if within then results st ++ [node] else results st)
          id in
      let main := if ltb0 diff then l else r in
      let other := if ltb0 diff then r else l in
      let st2 := dfs target projectedRadius r2 main (depth + 1) st1 in
      let branched := Qle_bool (Qabs diff) projectedRadius in
      let st3 :=
        if branched then dfs target projectedRadius r2 other (depth + 1) st2
        else st2 in
      mkTraceState (setBranched idx branched (steps st3)) (results st3)
        (visitId st3)
  end.

(** What [rangeSearchTrace] returns, but for the elapsed time
    [searchMs]. *)
Record TraceResult : Type := mkTraceResult {
  traceSteps : list Step;
  traceResults : list KDNode;
  visited : nat
}.

(** [rangeSearchTrace(root, target, projectedRadius)] (lines 43 to 92). *)
Definition rangeSearchTrace (root : KDNode) (target : point)
  (projectedRadius : Q) : TraceResult :=
  let r2 := projectedRadius * projectedRadius in
  let st := dfs target projectedRadius r2 root 0 (mkTraceState [] [] 0) in
  mkTraceResult (steps st) (results st) (length (steps st)).

(** The counting [dfs] of the benchmark route (route.ts, lines 99 to 110),
    [kdVisited] being the counter it increments. *)
Fixpoint dfsVisited (centerMerc : point) (rProj : Q) (node : KDNode)
  (depth : nat) (kdVisited : nat) : nat :=
  match node with
  | Null => kdVisited
  | Node p _ l r =>
      let kdVisited1 := S kdVisited in
      let k := length centerMerc in
      let axis := (depth mod k)%nat in
      let diff := coord centerMerc axis - coord p axis in
      let main := if ltb0 diff then l else r in
      let other := if ltb0 diff then r else l in
      let kdVisited2 := dfsVisited centerMerc rProj main (depth + 1) kdVisited1 in
      if Qle_bool (Qabs diff) rProj
      then dfsVisited centerMerc rProj other (depth + 1) kdVisited2
      else kdVisited2
  end.

(** [pruningPct] (KDTreeSearch.tsx, lines 296 to 299) for [count]
    restaurants. *)
Definition pruningPct (visited count : nat) : Q :=
  if (0 <? count)%nat
  then Qmax 0 (100 - (inject_Z (Z.of_nat visited) / inject_Z (Z.of_nat count)) * 100)
  else 0.

(** ** Vocabulary of the properties *)

(** What a step of the trace says of the visit it records: the signed
    distance of the target to the splitting line, whether the node's point
    is within the radius, and whether the search went on to the far child. *)
Definition stepRecords (target : point) (radius : Q) (s : Step) : Prop :=
  diff s = coord target (stepAxis s) - coord (stepPoint s) (stepAxis s) /\
  within s =
    Qle_bool (distanceSquared target (stepPoint s)) (radius * radius) /\
  branched s = Qle_bool (Qabs (diff s)) radius.

(** A tree cut at its medians: at every node the left subtree has as many
    nodes as the right one, or one more. *)
Fixpoint medianBalanced (t : KDNode) : Prop :=
  match t with
  | Null => True
  | Node _ _ l r =>
      (length (treeNodes r) <= length (treeNodes l) <=
       S (length (treeNodes r)))%nat /\
      medianBalanced l /\ medianBalanced r
  end.

(** The number of levels of a tree of [n] nodes that is cut at its medians:
    none for no node, otherwise [floor(log2 n) + 1]. *)
Definition levels (n : nat) : nat :=
  match n with
  | O => O
  | S _ => S (Nat.log2 n)
  end.

End Trace.

(** * The geodesic scan and the statistics, their definitions

    [haversineMeters], the linear scans and [stats] compute on doubles with
    [Math.sin], [Math.cos], [Math.atan2] and [Math.sqrt]; as the projection
    they are embedded over the real numbers. *)
Module Geo.

Local Open Scope R_scope.

(** [Math.atan2(y, x)]: the angle of the point [(x, y)], in [(-pi, pi]]. *)
Definition atan2 (y x : R) : R :=
  if Rlt_dec 0 x then atan (y / x)
  else if Rlt_dec x 0
       then if Rle_dec 0 y then atan (y / x) + PI else atan (y / x) - PI
       else if Rlt_dec 0 y then PI / 2
            else if Rlt_dec y 0 then - (PI / 2) else 0.

(** [toRad] of [haversineMeters]. *)
Definition toRad (d : R) : R := (d * PI) / 180.

(** [haversineMeters(lat1, lon1, lat2, lon2)] (benchmark.js, lines 20
    to 30; the same function is in route.ts and in the components). *)
Definition haversineMeters (lat1 lon1 lat2 lon2 : R) : R :=
  let R_ := 6371008.8 in
  let phi1 := toRad lat1 in
  let phi2 := toRad lat2 in
  let dphi := toRad (lat2 - lat1) in
  let dlam := toRad (lon2 - lon1) in
  let a :=
    sin (dphi / 2) ^ 2 + cos phi1 * cos phi2 * sin (dlam / 2) ^ 2 in
  let c := 2 * atan2 (sqrt a) (sqrt (1 - a)) in
  R_ * c.

(** The quantity [a] of [haversineMeters], of which it takes the square
    roots of [a] and of [1 - a]. *)
Definition haversineA (lat1 lon1 lat2 lon2 : R) : R :=
  sin (toRad (lat2 - lat1) / 2) ^ 2 +
  cos (toRad lat1) * cos (toRad lat2) * sin (toRad (lon2 - lon1) / 2) ^ 2.

(** [x <= y] as the boolean a comparison of numbers gives. *)
Definition Rleb (x y : R) : bool := if Rle_dec x y then true else false.

(** [linearSearchGeo(latlons, centerLatLon, radiusMeters)] (benchmark.js,
    lines 79 to 86): the loop from index [i] on, [resIdx] being the indices
    pushed so far. *)
Fixpoint linearSearchGeo_loop (latlons : list (R * R)) (centerLatLon : R * R)
  (radiusMeters : R) (i : nat) (resIdx : list nat) : list nat :=
  match latlons with
  | [] => resIdx
  | (plat, plon) :: rest =>
      let resIdx' :=
        if Rleb (haversineMeters (fst centerLatLon) (snd centerLatLon)
                   plat plon) radiusMeters
        then resIdx ++ [i] else resIdx in
      linearSearchGeo_loop rest centerLatLon radiusMeters (S i) resIdx'
  end.

Definition linearSearchGeo (latlons : list (R * R)) (centerLatLon : R * R)
  (radiusMeters : R) : list nat :=
  linearSearchGeo_loop latlons centerLatLon radiusMeters 0 [].

(** [type Step] of LinearSearch.tsx; the scan gives every step the axis
    [-1]. *)
Record LinStep : Type := mkLinStep {
  linId : nat;
  linPoint : list R;
  linAxis : Z;
  linDiff : R;
  linWithin : bool;
  linBranched : bool
}.

(** What [linearRangeSearchTraceGeo] returns, but for the elapsed time. *)
Record LinTrace : Type := mkLinTrace {
  linSteps : list LinStep;
  linResultsIdx : list nat;
  linVisited : nat
}.

(** The loop of [linearRangeSearchTraceGeo] (LinearSearch.tsx, lines 60
    to 74), [todo] being the iterations that remain,
    [projectedPoints.length - i].  The destructuring
    [const [plat, plon] = latLonPoints[i]] throws when [latLonPoints] has no
    element at [i]: [None]. *)
Fixpoint linearTrace_loop (projectedPoints : list (list R))
  (latLonPoints : list (R * R)) (centerLatLon : R * R) (radiusMeters : R)
  (todo i : nat) (steps : list LinStep) (resultsIdx : list nat)
  : option (list LinStep * list nat) :=
  match todo with
  | O => Some (steps, resultsIdx)
  | S todo' =>
      match nth_error latLonPoints i with
      | None => None
      | Some (plat, plon) =>
          let within :=
            Rleb (haversineMeters (fst centerLatLon) (snd centerLatLon)
                    plat plon) radiusMeters in
          let steps' :=
            steps ++
            [mkLinStep (i + 1) (nth i projectedPoints []) (-1) 0 within false] in
          let resultsIdx' :=
            if within then resultsIdx ++ [i] else resultsIdx in
          linearTrace_loop projectedPoints latLonPoints centerLatLon
            radiusMeters todo' (S i) steps' resultsIdx'
      end
  end.

(** [linearRangeSearchTraceGeo] (LinearSearch.tsx, lines 51 to 82). *)
Definition linearRangeSearchTraceGeo (projectedPoints : list (list R))
  (latLonPoints : list (R * R)) (centerLatLon : R * R) (radiusMeters : R)
  : option LinTrace :=
  match
    linearTrace_loop projectedPoints latLonPoints centerLatLon radiusMeters
      (length projectedPoints) 0 [] []
  with
  | Some (steps, resultsIdx) =>
      Some (mkLinTrace steps resultsIdx (length steps))
  | None => None
  end.

(** [stats(nums)] (route.ts, lines 60 to 66; benchmark.js, lines 98
    to 107). *)
Record Stats : Type := mkStats { mean : R; std : R; n : nat }.

Definition stats (nums : list R) : Stats :=
  let n := length nums in
  let mean := fold_left (fun a b => a + b) nums 0 / INR n in
  let sq := fold_left (fun a b => a + (b - mean) * (b - mean)) nums 0 in
  let std := sqrt (sq / INR n) in
  mkStats mean std n.

(** The radius handed to the tree search for a radius in meters around a
    center of latitude [centerLat] (route.ts, lines 89 and 90):
    [radiusMeters / Math.cos((centerLat * Math.PI) / 180)]. *)
Definition projectedRadius (radiusMeters centerLat : R) : R :=
  let phiRad := (centerLat * PI) / 180 in
  radiusMeters / cos phiRad.

(** [randInCircle(lat, lon, meters)] (benchmark.js, lines 88 to 96), the
    two values [Math.random()] returns, in [[0, 1)], being [random1] and
    [random2]. *)
Definition randInCircle (random1 random2 : R) (lat lon meters : R) : R * R :=
  let r := sqrt random1 * meters in
  let theta := random2 * 2 * PI in
  let dLat := (r * cos theta) / 111320 in
  let dLon := (r * sin theta) / (111320 * cos ((lat * PI) / 180)) in
  (lat + dLat, lon + dLon).

End Geo.

Import Store.
Import Projection.
Import Trace.
Import Geo.
Local Open Scope Q_scope.

(** * The code on small inputs *)

Example sort_ties_keep_order :
  sort (byAxis 0) [[0; 0]; [10; 0]; [0; 10]] = [[0; 0]; [0; 10]; [10; 0]].
Proof. reflexivity. Qed.

Example buildKDTree_three_points :
  buildKDTree [[0; 0]; [10; 0]; [0; 10]] 0 =
  Node [0; 10] 0 (Node [0; 0] 1 Null Null) (Node [10; 0] 1 Null Null).
Proof. reflexivity. Qed.

Example distanceSquared_3_4 : distanceSquared [0; 0] [3; 4] == 25.
Proof. reflexivity. Qed.

Example rangeSearch_prunes_far_side :
  map nodePoint
    (rangeSearch (buildKDTree [[0; 0]; [10; 0]; [0; 10]; [20; 20]] 0)
       [20; 20] 1 0 []) = [[20; 20]].
Proof. reflexivity. Qed.

(** * Facts about the sort *)

Section SortFacts.
Variable compareFn : point -> point -> Q.

Lemma insert_perm (x : point) (l : list point) :
  Permutation (insert compareFn x l) (x :: l).
Proof.
  induction l as [|y l IH]; simpl.
  - apply Permutation_refl.
  - destruct (Qle_bool (compareFn x y) 0).
    + apply Permutation_refl.
    + eapply perm_trans; [apply perm_skip, IH | apply perm_swap].
Qed.

Lemma sort_perm (l : list point) : Permutation (sort compareFn l) l.
Proof.
  induction l as [|x l IH]; simpl.
  - constructor.
  - eapply perm_trans; [apply insert_perm | apply perm_skip, IH].
Qed.

Lemma sort_length (l : list point) : length (sort compareFn l) = length l.
Proof. apply Permutation_length, sort_perm. Qed.
End SortFacts.

Lemma byAxis_le (axis : nat) (a b : point) :
  Qle_bool (byAxis axis a b) 0 = true <-> leAxis axis a b.
Proof.
  unfold byAxis, leAxis. rewrite Qle_bool_iff. split; intro H; lra.
Qed.

Lemma insert_sorted (axis : nat) (x : point) (l : list point) :
  StronglySorted (leAxis axis) l ->
  StronglySorted (leAxis axis) (insert (byAxis axis) x l).
Proof.
  induction 1 as [|y l Hs IH Hy]; simpl.
  - repeat constructor.
  - destruct (Qle_bool (byAxis axis x y) 0) eqn:E.
    + apply byAxis_le in E.
      constructor; [constructor; assumption|].
      constructor; [exact E|].
      eapply Forall_impl; [|exact Hy].
      intros z Hz. unfold leAxis in *. lra.
    + assert (Hyx : leAxis axis y x).
      { unfold leAxis. destruct (Qlt_le_dec (coord x axis) (coord y axis)) as [Hlt|Hle];
          [|exact Hle].
        assert (Qle_bool (byAxis axis x y) 0 = true) as E'
            by (apply byAxis_le; unfold leAxis; lra).
        congruence. }
      constructor; [exact IH|].
      eapply Permutation_Forall;
        [apply Permutation_sym, insert_perm|].
      constructor; assumption.
Qed.

Lemma sort_sorted (axis : nat) (l : list point) :
  StronglySorted (leAxis axis) (sort (byAxis axis) l).
Proof.
  induction l as [|x l IH]; simpl.
  - constructor.
  - apply insert_sorted, IH.
Qed.

(** The sort is stable: points tied on the axis keep the order they had. *)
Lemma insert_stable (axis : nat) (v : Q) (x : point) (l : list point) :
  filter (keyIs axis v) (insert (byAxis axis) x l) =
  filter (keyIs axis v) (x :: l).
Proof.
  induction l as [|y l IH]; [reflexivity|].
  cbn [insert]. destruct (Qle_bool (byAxis axis x y) 0) eqn:E; [reflexivity|].
  cbn [filter] in *. rewrite IH.
  destruct (keyIs axis v y) eqn:Ey, (keyIs axis v x) eqn:Ex; try reflexivity.
  unfold keyIs in Ex, Ey. apply Qeq_bool_iff in Ex, Ey.
  assert (Qle_bool (byAxis axis x y) 0 = true)
    by (apply Qle_bool_iff; unfold byAxis; lra).
  congruence.
Qed.

Lemma sort_stable (axis : nat) (v : Q) (l : list point) :
  filter (keyIs axis v) (sort (byAxis axis) l) = filter (keyIs axis v) l.
Proof.
  induction l as [|x l IH]; [reflexivity|].
  cbn [sort]. rewrite insert_stable. cbn [filter]. now rewrite IH.
Qed.

(** * Unfolding [buildKDTree] *)

Lemma slice_lt (sorted : list point) (mid : nat) :
  (length (slice sorted 0 mid) <= mid)%nat.
Proof.
  unfold slice. rewrite Nat.sub_0_r. simpl. apply firstn_le_length.
Qed.

Lemma sliceFrom_length (sorted : list point) (mid : nat) :
  length (sliceFrom sorted (mid + 1)) = (length sorted - (mid + 1))%nat.
Proof. unfold sliceFrom. apply length_skipn. Qed.

Lemma half_lt (n : nat) : (0 < n -> n / 2 < n)%nat.
Proof. intro H. apply Nat.div_lt; lia. Qed.

Lemma buildKDTree_fuel_stable (fuel1 : nat) :
  forall fuel2 points depth,
    (length points < fuel1)%nat -> (length points < fuel2)%nat ->
    buildKDTree_fuel fuel1 points depth <> None /\
    buildKDTree_fuel fuel1 points depth = buildKDTree_fuel fuel2 points depth.
Proof.
  induction fuel1 as [|fuel1 IH]; intros fuel2 points depth H1 H2; [lia|].
  destruct fuel2 as [|fuel2]; [lia|].
  destruct points as [|p0 rest]; cbn [buildKDTree_fuel];
    [split; [discriminate|reflexivity]|].
  set (sorted := sort _ (p0 :: rest)).
  assert (Hlen : length sorted = S (length rest)) by apply sort_length.
  set (mid := (length sorted / 2)%nat).
  assert (Hmid : (mid < length sorted)%nat) by (apply half_lt; lia).
  pose proof (slice_lt sorted mid) as Hl.
  pose proof (sliceFrom_length sorted mid) as Hr.
  simpl in H1, H2.
  destruct (IH fuel2 (slice sorted 0 mid) (depth + 1)%nat) as [Hn1 He1]; try lia.
  destruct (IH fuel2 (sliceFrom sorted (mid + 1)) (depth + 1)%nat) as [Hn2 He2];
    try lia.
  rewrite <- He1, <- He2.
  destruct (buildKDTree_fuel fuel1 (slice sorted 0 mid) (depth + 1)); [|congruence].
  destruct (buildKDTree_fuel fuel1 (sliceFrom sorted (mid + 1)) (depth + 1));
    [|congruence].
  split; [discriminate|reflexivity].
Qed.

Lemma buildKDTree_fuel_enough (fuel : nat) (points : list point) (depth : nat) :
  (length points < fuel)%nat ->
  buildKDTree_fuel fuel points depth = Some (buildKDTree points depth).
Proof.
  intro H. unfold buildKDTree.
  destruct (buildKDTree_fuel_stable fuel (S (length points)) points depth)
    as [Hn He]; try lia.
  rewrite <- He.
  destruct (buildKDTree_fuel fuel points depth); congruence.
Qed.

Lemma buildKDTree_nil (depth : nat) : buildKDTree [] depth = Null.
Proof. reflexivity. Qed.

(** The body of [buildKDTree] on a non-empty array (lines 18 to 25). *)
Lemma buildKDTree_cons (p0 : point) (rest : list point) (depth : nat) :
  let points := p0 :: rest in
  let axis := (depth mod length p0)%nat in
  let sorted := sort (byAxis axis) points in
  let mid := (length sorted / 2)%nat in
  buildKDTree points depth =
  Node (nth mid sorted []) axis
    (buildKDTree (slice sorted 0 mid) (depth + 1))
    (buildKDTree (sliceFrom sorted (mid + 1)) (depth + 1)).
Proof.
  intros points axis sorted mid.
  assert (Hlen : length sorted = S (length rest)) by apply sort_length.
  assert (Hmid : (mid < length sorted)%nat) by (apply half_lt; lia).
  pose proof (slice_lt sorted mid) as Hl.
  pose proof (sliceFrom_length sorted mid) as Hr.
  assert (H : buildKDTree_fuel (S (length points)) points depth =
              Some (buildKDTree points depth))
    by (apply buildKDTree_fuel_enough; lia).
  unfold points in H at 2. cbn [buildKDTree_fuel] in H.
  fold points axis in H. fold sorted in H. fold mid in H.
  assert (Hp : length points = S (length rest)) by reflexivity.
  rewrite (buildKDTree_fuel_enough _ (slice sorted 0 mid)) in H by lia.
  rewrite (buildKDTree_fuel_enough _ (sliceFrom sorted (mid + 1))) in H by lia.
  congruence.
Qed.

(** Both recursive calls of [buildKDTree] receive fewer points. *)
Lemma slices_shorter (compareFn : point -> point -> Q) (p0 : point)
  (rest : list point) :
  let sorted := sort compareFn (p0 :: rest) in
  let mid := (length sorted / 2)%nat in
  (length (slice sorted 0 mid) < length (p0 :: rest))%nat /\
  (length (sliceFrom sorted (mid + 1)) < length (p0 :: rest))%nat.
Proof.
  intros sorted mid.
  assert (Hlen : length sorted = length (p0 :: rest)) by apply sort_length.
  assert (Hmid : (mid < length sorted)%nat) by (apply half_lt; simpl in Hlen; lia).
  pose proof (slice_lt sorted mid) as Hl.
  pose proof (sliceFrom_length sorted mid) as Hr.
  rewrite <- Hlen. split; lia.
Qed.

(** Induction following the calls of [buildKDTree]. *)
Lemma buildKDTree_calls_ind (P : list point -> nat -> KDNode -> Prop) :
  (forall depth, P [] depth Null) ->
  (forall p0 rest depth,
      let points := p0 :: rest in
      let axis := (depth mod length p0)%nat in
      let sorted := sort (byAxis axis) points in
      let mid := (length sorted / 2)%nat in
      let l := buildKDTree (slice sorted 0 mid) (depth + 1) in
      let r := buildKDTree (sliceFrom sorted (mid + 1)) (depth + 1) in
      P (slice sorted 0 mid) (depth + 1)%nat l ->
      P (sliceFrom sorted (mid + 1)) (depth + 1)%nat r ->
      P points depth (Node (nth mid sorted []) axis l r)) ->
  forall points depth, P points depth (buildKDTree points depth).
Proof.
  intros Hnil Hcons points.
  induction points as [points IH] using (induction_ltof1 _ (@length point)).
  unfold ltof in IH. intro depth.
  destruct points as [|p0 rest]; [apply Hnil|].
  rewrite buildKDTree_cons.
  set (axis := (depth mod length p0)%nat).
  set (sorted := sort (byAxis axis) (p0 :: rest)).
  set (mid := (length sorted / 2)%nat).
  assert (Hlen : length sorted = S (length rest)) by apply sort_length.
  assert (Hmid : (mid < length sorted)%nat) by (apply half_lt; lia).
  pose proof (slice_lt sorted mid) as Hl.
  pose proof (sliceFrom_length sorted mid) as Hr.
  apply Hcons; apply IH; apply slices_shorter.
Qed.

(** * The sorted array around its middle *)

Lemma sorted_split (sorted : list point) (mid : nat) :
  (mid < length sorted)%nat ->
  sorted = slice sorted 0 mid ++ nth mid sorted [] :: sliceFrom sorted (mid + 1).
Proof.
  intro H. unfold slice, sliceFrom. rewrite Nat.sub_0_r. simpl skipn at 1.
  rewrite <- (firstn_skipn mid sorted) at 1. f_equal.
  revert sorted H. induction mid as [|mid IH]; intros [|x l] H; simpl in *;
    try lia; [reflexivity|].
  apply IH. lia.
Qed.

Lemma sorted_split_perm (sorted : list point) (mid : nat) :
  (mid < length sorted)%nat ->
  Permutation
    (nth mid sorted [] :: slice sorted 0 mid ++ sliceFrom sorted (mid + 1))
    sorted.
Proof.
  intro H. eapply perm_trans; [apply Permutation_middle|].
  rewrite <- sorted_split by exact H. apply Permutation_refl.
Qed.

Lemma StronglySorted_middle {A : Type} (R : A -> A -> Prop) (l1 l2 : list A)
  (x : A) :
  (forall a b c, R a b -> R b c -> R a c) ->
  StronglySorted R (l1 ++ x :: l2) ->
  Forall (fun a => R a x) l1 /\ Forall (fun b => R x b) l2.
Proof.
  intros Htrans. induction l1 as [|a l1 IH]; simpl; intro H.
  - split; [constructor|]. inversion H; assumption.
  - inversion H as [|? ? Hs Hall]; subst.
    destruct (IH Hs) as [H1 H2]. split; [|exact H2].
    constructor; [|exact H1].
    rewrite Forall_forall in Hall. apply Hall, in_elt.
Qed.

Lemma leAxis_trans (axis : nat) (a b c : point) :
  leAxis axis a b -> leAxis axis b c -> leAxis axis a c.
Proof. unfold leAxis; intros; lra. Qed.

Lemma treePoints_Node (p : point) (axis : nat) (l r : KDNode) :
  treePoints (Node p axis l r) = p :: treePoints l ++ treePoints r.
Proof. unfold treePoints. simpl. now rewrite map_app. Qed.

(** * The tree stores the input points *)

Lemma buildKDTree_perm (points : list point) (depth : nat) :
  Permutation (treePoints (buildKDTree points depth)) points.
Proof.
  apply buildKDTree_calls_ind with (points := points) (depth := depth);
    clear points depth.
  - intros; constructor.
  - intros p0 rest depth points axis sorted mid l r IHl IHr.
    rewrite treePoints_Node.
    assert (Hlen : length sorted = S (length rest)) by apply sort_length.
    assert (Hmid : (mid < length sorted)%nat) by (apply half_lt; lia).
    eapply perm_trans; [|apply (sort_perm (byAxis axis))]. fold sorted.
    eapply perm_trans; [|apply (sorted_split_perm sorted mid Hmid)].
    apply perm_skip, Permutation_app; assumption.
Qed.

Lemma treeNodes_length (t : KDNode) :
  length (treePoints t) = length (treeNodes t).
Proof. unfold treePoints. apply length_map. Qed.

(** * The partition invariant *)

Lemma buildKDTree_invariant (k : nat) (points : list point) (depth : nat) :
  Forall (hasDim k) points -> kdInvariant k depth (buildKDTree points depth).
Proof.
  apply buildKDTree_calls_ind with (points := points) (depth := depth);
    clear points depth.
  - intros; exact I.
  - intros p0 rest depth points axis sorted mid l r IHl IHr Hdim.
    assert (Hlen : length sorted = S (length rest)) by apply sort_length.
    assert (Hmid : (mid < length sorted)%nat) by (apply half_lt; lia).
    assert (Hsorted : StronglySorted (leAxis axis) sorted) by apply sort_sorted.
    pose proof (sorted_split sorted mid Hmid) as Hsplit.
    assert (Hdims : Forall (hasDim k) sorted).
    { eapply Permutation_Forall; [apply Permutation_sym, sort_perm|exact Hdim]. }
    rewrite Hsplit in Hsorted, Hdims.
    apply StronglySorted_middle in Hsorted; [|apply leAxis_trans].
    destruct Hsorted as [Hle Hge].
    apply Forall_app in Hdims. destruct Hdims as [Hdl Hdr].
    apply Forall_cons_iff in Hdr. destruct Hdr as [_ Hdr].
    cbn [kdInvariant]. repeat split.
    + unfold axis. inversion Hdim as [|? ? Hp0 _]; subst. now rewrite Hp0.
    + eapply Permutation_Forall;
        [apply Permutation_sym, buildKDTree_perm|exact Hle].
    + eapply Permutation_Forall;
        [apply Permutation_sym, buildKDTree_perm|exact Hge].
    + rewrite <- Nat.add_1_r. apply IHl, Hdl.
    + rewrite <- Nat.add_1_r. apply IHr, Hdr.
Qed.

(** * Squared distance *)

Lemma Qsquare_nonneg (x : Q) : 0 <= x * x.
Proof. nra. Qed.

Lemma Qsquare_lt (u r : Q) : 0 <= r -> r < u -> r * r < u * u.
Proof.
  intros Hr Hu.
  assert (0 < (u - r) * (u + r)) by (apply Qmult_lt_0_compat; lra).
  nra.
Qed.

Lemma reduce_sumSquares (p2 : point) (l : list Q) :
  forall i acc,
    reduce (fun s v i => let d := v - coord p2 i in s + d * d) l i acc ==
    acc + sumSquares l i p2.
Proof.
  induction l as [|v l IH]; intros i acc; cbn [reduce sumSquares].
  - ring.
  - rewrite IH. ring.
Qed.

Lemma distanceSquared_sum (p1 p2 : point) :
  distanceSquared p1 p2 == sumSquares p1 0 p2.
Proof. unfold distanceSquared. rewrite reduce_sumSquares. ring. Qed.

Lemma sumSquares_nonneg (p2 : point) (l : list Q) :
  forall i, 0 <= sumSquares l i p2.
Proof.
  induction l as [|v l IH]; intro i; cbn [sumSquares].
  - lra.
  - specialize (IH (S i)). pose proof (Qsquare_nonneg (v - coord p2 i)). lra.
Qed.

Lemma sumSquares_ge (p2 : point) (l : list Q) :
  forall i j, (j < length l)%nat ->
    (nth j l 0 - coord p2 (i + j)) * (nth j l 0 - coord p2 (i + j)) <=
    sumSquares l i p2.
Proof.
  induction l as [|v l IH]; intros i j Hj; simpl in Hj; [lia|].
  destruct j as [|j]; cbn [sumSquares nth].
  - rewrite Nat.add_0_r. pose proof (sumSquares_nonneg p2 l (S i)). lra.
  - specialize (IH (S i) j ltac:(lia)).
    replace (i + S j)%nat with (S i + j)%nat by lia.
    pose proof (Qsquare_nonneg (v - coord p2 i)). lra.
Qed.

Lemma distanceSquared_nonneg (p1 p2 : point) : 0 <= distanceSquared p1 p2.
Proof. rewrite distanceSquared_sum. apply sumSquares_nonneg. Qed.

(** One coordinate alone bounds the squared distance from below. *)
Lemma distanceSquared_ge_axis (target q : point) (a : nat) :
  (a < length target)%nat ->
  (coord target a - coord q a) * (coord target a - coord q a) <=
  distanceSquared target q.
Proof.
  intro H. rewrite distanceSquared_sum.
  apply (sumSquares_ge q target 0 a H).
Qed.

(** * Range search *)

Lemma rangeSearch_acc (root : KDNode) (target : point) (radius : Q) :
  forall depth results,
    rangeSearch root target radius depth results =
    results ++ rangeSearch root target radius depth [].
Proof.
  induction root as [|p axis l IHl r IHr]; intros depth results;
    cbn [rangeSearch app]; cbv zeta.
  - now rewrite app_nil_r.
  - set (root := Node p axis l r).
    set (hit := Qle_bool (distanceSquared target p) (radius * radius)).
    set (diff := coord target (depth mod length target) -
                 coord p (depth mod length target)).
    assert (E1 : (if hit then results ++ [root] else results) =
                 results ++ (if hit then [root] else []))
      by (destruct hit; [reflexivity | now rewrite app_nil_r]).
    rewrite E1.
    destruct (ltb0 diff), (Qle_bool (Qabs diff) radius);
      repeat match goal with
        | |- context [rangeSearch ?t target radius ?d ?acc] =>
            lazymatch acc with
            | [] => fail
            | _ => first [rewrite (IHl d acc) | rewrite (IHr d acc)]
            end
        end;
      now rewrite <- ?app_assoc.
Qed.

(** The calls of [rangeSearch] laid out: the root's own test, then the child
    on the target's side, then the other child unless it is pruned. *)
Lemma rangeSearch_Node (p : point) (axis : nat) (l r : KDNode)
  (target : point) (radius : Q) (depth : nat) :
  let root := Node p axis l r in
  let a := (depth mod length target)%nat in
  let diff := coord target a - coord p a in
  let near := if ltb0 diff then l else r in
  let far := if ltb0 diff then r else l in
  rangeSearch root target radius depth [] =
  (if matches target radius root then [root] else []) ++
  rangeSearch near target radius (depth + 1) [] ++
  (if Qle_bool (Qabs diff) radius
   then rangeSearch far target radius (depth + 1) [] else []).
Proof.
  intros root a diff near far. unfold near, far, matches.
  cbn [rangeSearch app nodePoint root]; cbv zeta. fold root. fold a. fold diff.
  destruct (ltb0 diff), (Qle_bool (Qabs diff) radius);
    repeat match goal with
      | |- context [rangeSearch ?t target radius ?d ?acc] =>
          lazymatch acc with
          | [] => fail
          | _ => rewrite (rangeSearch_acc t target radius d acc)
          end
      end;
    now rewrite <- ?app_assoc, ?app_nil_r.
Qed.

(** A point further than [radius] from the target along one axis fails the
    test of line 48. *)
Lemma axis_gap_misses (target q : point) (radius : Q) (a : nat) :
  (a < length target)%nat -> 0 <= radius ->
  radius < Qabs (coord target a - coord q a) ->
  Qle_bool (distanceSquared target q) (radius * radius) = false.
Proof.
  intros Ha Hr Hgap.
  destruct (Qle_bool (distanceSquared target q) (radius * radius)) eqn:E;
    [|reflexivity].
  apply Qle_bool_iff in E.
  pose proof (distanceSquared_ge_axis target q a Ha) as Hge.
  set (u := coord target a - coord q a) in *.
  assert (Hsq : radius * radius < u * u).
  { revert Hgap. apply Qabs_case; intros Hsign Hgap.
    - apply Qsquare_lt; assumption.
    - setoid_replace (u * u) with ((- u) * (- u)) by ring.
      apply Qsquare_lt; assumption. }
  lra.
Qed.

Lemma filter_none {A : Type} (f : A -> bool) (l : list A) :
  Forall (fun x => f x = false) l -> filter f l = [].
Proof.
  induction 1 as [|x l Hx _ IH]; simpl; [reflexivity|].
  now rewrite Hx.
Qed.

Lemma ltb0_true (q : Q) : ltb0 q = true <-> q < 0.
Proof.
  unfold ltb0. rewrite negb_true_iff.
  split; intro H.
  - destruct (Qlt_le_dec q 0) as [Hlt|Hle]; [exact Hlt|].
    apply Qle_bool_iff in Hle. congruence.
  - destruct (Qle_bool 0 q) eqn:E; [|reflexivity].
    apply Qle_bool_iff in E. lra.
Qed.

Lemma ltb0_false (q : Q) : ltb0 q = false <-> 0 <= q.
Proof.
  unfold ltb0. rewrite negb_false_iff. apply Qle_bool_iff.
Qed.

Lemma Qle_bool_false (x y : Q) : Qle_bool x y = false <-> y < x.
Proof.
  split; intro H.
  - destruct (Qlt_le_dec y x) as [Hlt|Hle]; [exact Hlt|].
    apply Qle_bool_iff in Hle. congruence.
  - destruct (Qle_bool x y) eqn:E; [|reflexivity].
    apply Qle_bool_iff in E. lra.
Qed.

(** The pruning of line 56 is sound: a subtree that is skipped holds no
    match. *)
Lemma pruned_subtree_misses (target p : point) (radius : Q) (a : nat)
  (far : KDNode) :
  (a < length target)%nat -> 0 <= radius ->
  let diff := coord target a - coord p a in
  Qle_bool (Qabs diff) radius = false ->
  (if ltb0 diff
   then Forall (fun q => leAxis a p q) (treePoints far)
   else Forall (fun q => leAxis a q p) (treePoints far)) ->
  filter (matches target radius) (treeNodes far) = [].
Proof.
  intros Ha Hr diff Hprune Hside.
  apply Qle_bool_false in Hprune.
  apply filter_none. unfold treePoints in Hside.
  destruct (ltb0 diff) eqn:Es;
    [apply ltb0_true in Es | apply ltb0_false in Es];
    rewrite Forall_map in Hside;
    (eapply Forall_impl; [|exact Hside]);
    intros n Hn; unfold leAxis in Hn; apply (axis_gap_misses _ _ _ a Ha Hr);
    unfold diff in *.
  - rewrite Qabs_neg in Hprune by lra. rewrite Qabs_neg by lra. lra.
  - rewrite Qabs_pos in Hprune by lra. rewrite Qabs_pos by lra. lra.
Qed.

Lemma filter_head {A : Type} (f : A -> bool) (x : A) (l : list A) :
  filter f (x :: l) = (if f x then [x] else []) ++ filter f l.
Proof. simpl. now destruct (f x). Qed.

Lemma filter_perm {A : Type} (f : A -> bool) (l l' : list A) :
  Permutation l l' -> Permutation (filter f l) (filter f l').
Proof.
  induction 1 as [|x l l' _ IH|x y l|l l' l'' _ IH1 _ IH2]; simpl.
  - constructor.
  - destruct (f x); [apply perm_skip|]; exact IH.
  - destruct (f x), (f y); try apply Permutation_refl. apply perm_swap.
  - eapply perm_trans; eassumption.
Qed.

(** [rangeSearch] on a tree with the partition invariant returns the nodes
    that pass the test of line 48, each once. *)
Lemma rangeSearch_invariant (k : nat) (target : point) (radius : Q)
  (root : KDNode) :
  (0 < k)%nat -> hasDim k target -> 0 <= radius ->
  forall depth,
    kdInvariant k depth root ->
    Permutation (rangeSearch root target radius depth [])
      (filter (matches target radius) (treeNodes root)).
Proof.
  intros Hk Hdim Hr.
  induction root as [|p axis l IHl r IHr]; intros depth Hinv.
  - constructor.
  - rewrite rangeSearch_Node.
    destruct Hinv as (Hax & Hle & Hge & Hl & Hr').
    unfold hasDim in Hdim. rewrite Hdim. rewrite <- Hax.
    assert (Ha : (axis < length target)%nat)
      by (rewrite Hax, Hdim; apply Nat.mod_upper_bound; lia).
    rewrite Nat.add_1_r.
    specialize (IHl _ Hl). specialize (IHr _ Hr').
    set (root := Node p axis l r).
    set (diff := coord target axis - coord p axis).
    change (treeNodes root) with (root :: treeNodes l ++ treeNodes r).
    rewrite filter_head, filter_app.
    apply Permutation_app_head.
    destruct (Qle_bool (Qabs diff) radius) eqn:Eprune.
    + destruct (ltb0 diff).
      * apply Permutation_app; assumption.
      * eapply perm_trans; [apply Permutation_app_comm|].
        apply Permutation_app; assumption.
    + rewrite app_nil_r.
      pose proof (pruned_subtree_misses target p radius axis
                    (if ltb0 diff then r else l) Ha Hr Eprune) as Hfar.
      fold diff in Hfar.
      destruct (ltb0 diff); rewrite (Hfar ltac:(assumption)).
      * now rewrite app_nil_r.
      * exact IHr.
Qed.

Lemma filter_map_comm {A B : Type} (f : B -> bool) (g : A -> B) (l : list A) :
  filter f (map g l) = map g (filter (fun x => f (g x)) l).
Proof.
  induction l as [|x l IH]; simpl; [reflexivity|].
  destruct (f (g x)); simpl; now rewrite IH.
Qed.

Lemma withinRadius_matches (target : point) (radius : Q) (n : KDNode) :
  0 <= radius ->
  withinRadius target radius (nodePoint n) = matches target radius n.
Proof.
  intro Hr. unfold withinRadius, matches.
  apply Qle_bool_iff in Hr. now rewrite Hr.
Qed.

(** Range search over a built tree against the brute-force check, for
    points of any one dimension [k]. *)
Lemma rangeSearch_buildKDTree (k : nat) (points : list point) (target : point)
  (radius : Q) (depth : nat) :
  (0 < k)%nat -> Forall (hasDim k) points -> hasDim k target -> 0 <= radius ->
  Permutation
    (map nodePoint (rangeSearch (buildKDTree points depth) target radius depth []))
    (bruteForce points target radius).
Proof.
  intros Hk Hpts Htarget Hr.
  eapply perm_trans.
  - apply Permutation_map.
    apply (rangeSearch_invariant k); try assumption.
    apply buildKDTree_invariant, Hpts.
  - unfold bruteForce.
    eapply perm_trans; [|apply filter_perm, buildKDTree_perm with (depth := depth)].
    unfold treePoints. rewrite filter_map_comm.
    erewrite (filter_ext (fun x => withinRadius target radius (nodePoint x)));
      [apply Permutation_refl|].
    intro n. apply withinRadius_matches, Hr.
Qed.

(** X30: in exact arithmetic, for a radius that is not negative: for every
    finite list of planar points, every planar target and every such radius,
    the points of the nodes that [rangeSearch] returns over the tree
    [buildKDTree] builds are the points of the list that pass the
    brute-force distance check: the same points with the same
    multiplicities, so no point within the radius is lost to pruning and
    every point returned is within the radius. *)
Theorem X30_exact_search_equals_bruteForce (points : list point)
  (target : point) (radius : Q) :
  Forall planar points -> planar target -> 0 <= radius ->
  let found :=
    map nodePoint (rangeSearch (buildKDTree points 0) target radius 0 []) in
  Permutation found (bruteForce points target radius) /\
  (forall p, In p found <->
             In p points /\ withinRadius target radius p = true).
Proof.
  intros Hpts Htarget Hr found.
  assert (Hperm : Permutation found (bruteForce points target radius))
    by (apply (rangeSearch_buildKDTree 2); try assumption; lia).
  split; [exact Hperm|].
  intro p. unfold bruteForce in Hperm. rewrite <- filter_In. split; intro H.
  - eapply Permutation_in; [exact Hperm|exact H].
  - eapply Permutation_in; [apply Permutation_sym, Hperm|exact H].
Qed.

Lemma X30_exact_search_equals_bruteForce_witness :
  let points : list point := [[0; 0]; [10; 0]; [0; 10]; [10; 0]] in
  let found :=
    map nodePoint (rangeSearch (buildKDTree points 0) [3; 4] 5 0 []) in
  Permutation found (bruteForce points [3; 4] 5) /\
  (forall p, In p found <-> In p points /\ withinRadius [3; 4] 5 p = true).
Proof.
  apply (X30_exact_search_equals_bruteForce
           [[0; 0]; [10; 0]; [0; 10]; [10; 0]] [3; 4] 5).
  - repeat constructor.
  - reflexivity.
  - discriminate.
Defined.

(** C1, at a negative radius, where [rangeSearch] does not find all the
    nodes within the radius: over the tree built from
    [(0,0), (1,0), (2,0)], searched from [(0,0)] with radius [-5], line 47
    squares the radius to [25] and line 48 matches [(1,0)] and [(0,0)], but
    the test of line 56, [|diff| <= -5], never holds, so the right child,
    which holds [(2,0)] at squared distance [4], is not visited.  The
    search returns [(1,0)] and [(0,0)]; the check of the distance against
    [-5] accepts no point, and the check of the squared distance against
    [25] accepts all three. *)
Lemma C1_negative_radius_drops_a_point :
  let points : list point := [[0; 0]; [1; 0]; [2; 0]] in
  let target : point := [0; 0] in
  let radius : Q := -5 in
  let found :=
    map nodePoint (rangeSearch (buildKDTree points 0) target radius 0 []) in
  Forall planar points /\ planar target /\
  found = [[1; 0]; [0; 0]] /\
  ~ In [2; 0] found /\
  Qle_bool (distanceSquared target [2; 0]) (radius * radius) = true /\
  bruteForce points target radius = [] /\
  ~ (forall p, In p found <->
               In p points /\ withinRadius target radius p = true) /\
  filter (fun p => Qle_bool (distanceSquared target p) (radius * radius))
    points = points.
Proof.
  cbv zeta. repeat split.
  - repeat constructor.
  - intros [H|[H|[]]]; discriminate H.
  - intro H. destruct (proj1 (H [1; 0])) as [_ Hfalse].
    + left. reflexivity.
    + discriminate Hfalse.
Qed.

(** C2: for every list of planar points the tree of [buildKDTree] has the
    partition invariant: a node at depth [d] splits on axis [d mod 2], every
    point of its left subtree is less than or tied with the node's point on
    that axis, and every point of its right subtree is greater than or equal
    to it. *)
Theorem C2_partition_invariant (points : list point) (depth : nat) :
  Forall planar points -> kdInvariant 2 depth (buildKDTree points depth).
Proof. apply buildKDTree_invariant. Qed.

Lemma C2_partition_invariant_witness :
  kdInvariant 2 0 (buildKDTree [[3; 1]; [1; 5]; [3; 0]; [2; 2]; [3; 7]] 0).
Proof.
  apply (C2_partition_invariant [[3; 1]; [1; 5]; [3; 0]; [2; 2]; [3; 7]] 0).
  repeat constructor.
Defined.

(** * Range search on any tree *)


(** With a negative radius the second call is never made: the result is the
    matching part of the path of first calls. *)
Lemma rangeSearch_negative (target : point) (radius : Q) (root : KDNode) :
  radius < 0 ->
  forall depth,
    rangeSearch root target radius depth [] =
    filter (matches target radius) (nearPath root target depth).
Proof.
  intro Hneg.
  induction root as [|p axis l IHl r IHr]; intro depth; [reflexivity|].
  rewrite rangeSearch_Node. cbn [nearPath]. rewrite filter_head.
  set (diff := coord target (depth mod length target) -
               coord p (depth mod length target)).
  assert (E : Qle_bool (Qabs diff) radius = false).
  { apply Qle_bool_false. pose proof (Qabs_nonneg diff). lra. }
  rewrite E, app_nil_r. f_equal.
  destruct (ltb0 diff); [apply IHl | apply IHr].
Qed.


(** * The median split *)

(** C4, with the median that index [floor(count/2)] is: on a non-empty list
    of planar points [buildKDTree] sorts the points by the axis coordinate,
    takes the element at index [floor(count/2)] as the node's point, builds
    the left subtree from exactly the elements before that index and the
    right subtree from exactly the elements after it, both at depth [d+1];
    when [count] is even that index is the upper median, one above the
    lower median. *)
Theorem C4_median_split (points : list point) (depth : nat) :
  points <> [] -> Forall planar points ->
  let count := length points in
  let axis := (depth mod 2)%nat in
  let sorted := sort (byAxis axis) points in
  let mid := (count / 2)%nat in
  Permutation sorted points /\ StronglySorted (leAxis axis) sorted /\
  mid = upperMedianIndex count /\
  (Nat.even count = true -> mid = S (lowerMedianIndex count)) /\
  (Nat.even count = false -> mid = lowerMedianIndex count) /\
  exists pm,
    nth_error sorted mid = Some pm /\
    sorted = firstn mid sorted ++ pm :: skipn (S mid) sorted /\
    length (firstn mid sorted) = mid /\
    buildKDTree points depth =
    Node pm axis (buildKDTree (firstn mid sorted) (S depth))
      (buildKDTree (skipn (S mid) sorted) (S depth)).
Proof.
  intros Hne Hplanar count axis sorted mid.
  destruct points as [|p0 rest]; [congruence|].
  assert (Hp0 : length p0 = 2%nat) by (inversion Hplanar; assumption).
  assert (Hlen : length sorted = count) by apply sort_length.
  assert (Hcount : count = S (length rest)) by reflexivity.
  assert (Hmid : (mid < length sorted)%nat)
    by (rewrite Hlen; apply half_lt; lia).
  split; [apply sort_perm|]. split; [apply sort_sorted|].
  split; [reflexivity|]. split; [|split].
  - intro Heven. apply Nat.even_spec in Heven. destruct Heven as [m Hm].
    unfold mid, lowerMedianIndex. rewrite Hm.
    replace (2 * m - 1)%nat with (1 + (m - 1) * 2)%nat by lia.
    rewrite Nat.div_add by lia. rewrite Nat.mul_comm, Nat.div_mul by lia.
    simpl. lia.
  - intro Hodd. rewrite <- Nat.negb_odd, negb_false_iff in Hodd.
    apply Nat.odd_spec in Hodd. destruct Hodd as [m Hm].
    unfold mid, lowerMedianIndex. rewrite Hm.
    replace (2 * m + 1 - 1)%nat with (m * 2)%nat by lia.
    replace (2 * m + 1)%nat with (1 + m * 2)%nat by lia.
    rewrite Nat.div_add, Nat.div_mul by lia. reflexivity.
  - exists (nth mid sorted []).
    pose proof (sorted_split sorted mid Hmid) as Hsplit.
    unfold slice, sliceFrom in Hsplit.
    rewrite Nat.sub_0_r, Nat.add_1_r in Hsplit. cbn [skipn] in Hsplit.
    split; [apply nth_error_nth'; exact Hmid|].
    split; [exact Hsplit|].
    split; [apply firstn_length_le; lia|].
    pose proof (buildKDTree_cons p0 rest depth) as Hb. cbv zeta in Hb.
    rewrite Hp0 in Hb. fold axis in Hb. fold sorted in Hb.
    rewrite Hlen in Hb. fold mid in Hb. unfold slice, sliceFrom in Hb.
    rewrite Nat.sub_0_r, !Nat.add_1_r in Hb. exact Hb.
Qed.

Lemma C4_median_split_witness :
  let points : list point := [[5; 1]; [2; 2]; [9; 3]; [2; 4]] in
  let count := length points in
  let axis := (0 mod 2)%nat in
  let sorted := sort (byAxis axis) points in
  let mid := (count / 2)%nat in
  Permutation sorted points /\ StronglySorted (leAxis axis) sorted /\
  mid = upperMedianIndex count /\
  (Nat.even count = true -> mid = S (lowerMedianIndex count)) /\
  (Nat.even count = false -> mid = lowerMedianIndex count) /\
  exists pm,
    nth_error sorted mid = Some pm /\
    sorted = firstn mid sorted ++ pm :: skipn (S mid) sorted /\
    length (firstn mid sorted) = mid /\
    buildKDTree points 0 =
    Node pm axis (buildKDTree (firstn mid sorted) 1)
      (buildKDTree (skipn (S mid) sorted) 1).
Proof.
  apply (C4_median_split [[5; 1]; [2; 2]; [9; 3]; [2; 4]] 0).
  - discriminate.
  - repeat constructor.
Defined.

(** C4, counterexample: of the two points [(0,0)] and [(1,0)] the node takes
    [(1,0)], at index [1]; the lower median of the sorted pair is [(0,0)],
    at index [0]. *)
Lemma C4_counterexample_lower_median :
  let points : list point := [[0; 0]; [1; 0]] in
  let sorted := sort (byAxis 0) points in
  Nat.even (length points) = true /\
  sorted = [[0; 0]; [1; 0]] /\
  lowerMedianIndex (length points) = 0%nat /\
  nth_error sorted (lowerMedianIndex (length points)) = Some [0; 0] /\
  buildKDTree points 0 = Node [1; 0] 0 (Node [0; 0] 1 Null Null) Null /\
  Some (nodePoint (buildKDTree points 0)) <>
  nth_error sorted (lowerMedianIndex (length points)).
Proof. repeat split. discriminate. Qed.

(** * The scenario of three points *)



(** C6: an empty list of points builds the absent tree, and [rangeSearch]
    on the absent tree returns the empty array, whatever the target and the
    radius. *)
Theorem C6_empty_input :
  (forall depth, buildKDTree [] depth = Null) /\
  (forall fuel depth, buildKDTree_fuel (S fuel) [] depth = Some Null) /\
  (forall target radius depth, rangeSearch Null target radius depth [] = []) /\
  (forall target radius,
      rangeSearch (buildKDTree [] 0) target radius 0 [] = []).
Proof. repeat split. Qed.

(** * Duplicates *)




(** * Termination *)

Lemma rangeSearch_fuel_enough (target : point) (radius : Q) (fuel : nat) :
  forall root depth results,
    (height root < fuel)%nat ->
    rangeSearch_fuel fuel root target radius depth results =
    Some (rangeSearch root target radius depth results).
Proof.
  induction fuel as [|fuel IH]; intros root depth results Hh; [lia|].
  destruct root as [|p axis l r]; [reflexivity|].
  cbn [height] in Hh. cbn [rangeSearch_fuel rangeSearch]. cbv zeta.
  assert (Hl : (height l < fuel)%nat) by lia.
  assert (Hr : (height r < fuel)%nat) by lia.
  destruct (ltb0 _); rewrite IH by assumption;
    destruct (Qle_bool (Qabs _) radius); try reflexivity;
    apply IH; assumption.
Qed.

(** C10: [buildKDTree] returns on every list of points: both recursive
    calls receive fewer points than the call that makes them, and a bound of
    one more than the number of points on the depth of the recursion is
    never reached; [rangeSearch] returns on every tree: its recursive calls
    are on the children of the node, and a bound of one more than the height
    of the tree is never reached. *)
Theorem C10_termination :
  (forall p0 rest depth,
      let points := p0 :: rest in
      let sorted := sort (byAxis (depth mod length p0)) points in
      let mid := (length sorted / 2)%nat in
      (length (slice sorted 0 mid) < length points)%nat /\
      (length (sliceFrom sorted (mid + 1)) < length points)%nat) /\
  (forall points depth extra,
      buildKDTree_fuel (S (length points) + extra) points depth =
      Some (buildKDTree points depth)) /\
  (forall root target radius depth results extra,
      rangeSearch_fuel (S (height root) + extra) root target radius depth
        results =
      Some (rangeSearch root target radius depth results)).
Proof.
  split; [|split].
  - intros p0 rest depth. apply slices_shorter.
  - intros points depth extra. apply buildKDTree_fuel_enough. lia.
  - intros root target radius depth results extra.
    apply rangeSearch_fuel_enough. lia.
Qed.


Lemma nth_error_last {A : Type} (h : list A) (x : A) :
  nth_error (h ++ [x]) (length h) = Some x.
Proof. rewrite nth_error_app2, Nat.sub_diag by lia. reflexivity. Qed.

Lemma load_run (h : store) (a : ref) (arr : list point) :
  nth_error h a = Some arr -> load a h = Some (arr, h).
Proof. unfold load. now intros ->. Qed.

Lemma write_last (h : store) (old arr : list point) :
  write (length h) arr (h ++ [old]) = Some (tt, h ++ [arr]).
Proof.
  assert (E1 : firstn (length h) (h ++ [old]) = h)
    by (rewrite firstn_app, Nat.sub_diag, firstn_all; apply app_nil_r).
  assert (E2 : skipn (S (length h)) (h ++ [old]) = [])
    by (apply skipn_all2; rewrite length_app; simpl; lia).
  assert (E3 : (length h <? length (h ++ [old]))%nat = true)
    by (apply Nat.ltb_lt; rewrite length_app; simpl; lia).
  unfold write. now rewrite E1, E2, E3.
Qed.

(** The copy of line 20: sorting it leaves every array of the caller's store
    as it is. *)
Lemma spread_sort_run (h : store) (points : ref) (arr : list point)
  (compareFn : point -> point -> Q) :
  nth_error h points = Some arr ->
  (copy <- spread points ;; sortInPlace compareFn copy) h =
  Some (length h, h ++ [sort compareFn arr]).
Proof.
  intro Hload. unfold bind, spread, sortInPlace, bind.
  rewrite (load_run h points arr Hload). unfold alloc.
  rewrite (load_run (h ++ [arr]) (length h) arr (nth_error_last h arr)).
  rewrite write_last. reflexivity.
Qed.

Lemma buildKDTree_store_run (fuel : nat) :
  forall (h : store) (points : ref) (arr : list point) (depth : nat),
    nth_error h points = Some arr -> (length arr < fuel)%nat ->
    exists new,
      buildKDTree_store fuel points depth h =
      Some (buildKDTree arr depth, h ++ new).
Proof.
  induction fuel as [|fuel IH]; intros h points arr depth Hload Hfuel; [lia|].
  cbn [buildKDTree_store]. unfold bind at 1. rewrite (load_run _ _ _ Hload).
  destruct arr as [|p0 rest].
  { exists []. now rewrite app_nil_r. }
  set (axis := (depth mod length p0)%nat).
  set (sorted := sort (byAxis axis) (p0 :: rest)).
  destruct (slices_shorter (byAxis axis) p0 rest) as [Hl Hr].
  fold sorted in Hl, Hr.
  set (mid := (length sorted / 2)%nat) in *.
  set (h1 := h ++ [sorted]).
  assert (Hsorted : nth_error h1 (length h) = Some sorted)
    by apply nth_error_last.
  unfold bind at 1. unfold spread, bind at 1. rewrite (load_run _ _ _ Hload).
  unfold alloc at 1. unfold bind at 1. unfold sortInPlace, bind at 1.
  rewrite (load_run _ _ _ (nth_error_last h (p0 :: rest))).
  unfold bind at 1. rewrite write_last. unfold ret at 1. fold sorted h1.
  unfold bind at 1. rewrite (load_run _ _ _ Hsorted). fold mid.
  unfold bind at 1. unfold sliceOf, bind at 1.
  rewrite (load_run _ _ _ Hsorted). unfold alloc at 1.
  set (h2 := h1 ++ [slice sorted 0 mid]).
  destruct (IH h2 (length h1) (slice sorted 0 mid) (depth + 1)%nat)
    as [newl Hrunl]; [apply nth_error_last | simpl in Hl, Hfuel; lia |].
  unfold bind at 1. rewrite Hrunl.
  assert (Hsorted' : nth_error (h2 ++ newl) (length h) = Some sorted).
  { unfold h2. rewrite <- app_assoc. unfold h1. rewrite <- app_assoc.
    rewrite nth_error_app2, Nat.sub_diag by lia. reflexivity. }
  unfold bind at 1. unfold sliceFromOf, bind at 1.
  rewrite (load_run _ _ _ Hsorted'). unfold alloc at 1.
  set (h3 := (h2 ++ newl) ++ [sliceFrom sorted (mid + 1)]).
  destruct (IH h3 (length (h2 ++ newl)) (sliceFrom sorted (mid + 1))
              (depth + 1)%nat)
    as [newr Hrunr]; [apply nth_error_last | simpl in Hr, Hfuel; lia |].
  unfold bind at 1. rewrite Hrunr. unfold ret.
  exists ([sorted] ++ [slice sorted 0 mid] ++ newl ++
          [sliceFrom sorted (mid + 1)] ++ newr).
  rewrite buildKDTree_cons. fold axis. fold sorted. fold mid.
  unfold h3, h2, h1. now rewrite <- !app_assoc.
Qed.

(** The store model can tell a sort in place from a sort of a copy: without
    the copy the caller's array is reordered. *)
Example sortCallerArray_mutates :
  sortCallerArray 0%nat 0 [[[2; 0]; [1; 0]; [0; 0]]] =
  Some (0%nat, [[[0; 0]; [1; 0]; [2; 0]]]).
Proof. reflexivity. Qed.

(** C8: [buildKDTree] leaves the caller's array of points as it was: run on
    any store in which [points] is the address of an array, it returns the
    tree of the pure function, and the final store is the initial one
    followed by newly allocated arrays, so that the input array, like every
    array that existed before the call, holds the same points in the same
    order. *)
Theorem C8_input_array_unchanged (h : store) (points : ref)
  (arr : list point) (depth : nat) :
  nth_error h points = Some arr ->
  exists new,
    buildKDTree_store (S (length arr)) points depth h =
    Some (buildKDTree arr depth, h ++ new) /\
    nth_error (h ++ new) points = Some arr /\
    (forall a, (a < length h)%nat -> nth_error (h ++ new) a = nth_error h a).
Proof.
  intro Hload.
  destruct (buildKDTree_store_run (S (length arr)) h points arr depth Hload)
    as [new Hrun]; [lia|].
  exists new. split; [exact Hrun|].
  assert (Hframe : forall a, (a < length h)%nat ->
                             nth_error (h ++ new) a = nth_error h a)
    by (intros a Ha; now apply nth_error_app1).
  split; [|exact Hframe].
  rewrite Hframe; [exact Hload|].
  apply nth_error_Some. congruence.
Qed.

Lemma C8_input_array_unchanged_witness :
  let h : store := [[[7; 7]]; [[2; 0]; [1; 5]; [0; 3]]] in
  let arr : list point := [[2; 0]; [1; 5]; [0; 3]] in
  exists new,
    buildKDTree_store (S (length arr)) 1%nat 0 h =
    Some (buildKDTree arr 0, h ++ new) /\
    nth_error (h ++ new) 1 = Some arr /\
    (forall a, (a < length h)%nat -> nth_error (h ++ new) a = nth_error h a).
Proof.
  apply (C8_input_array_unchanged
           [[[7; 7]]; [[2; 0]; [1; 5]; [0; 3]]] 1%nat
           [[2; 0]; [1; 5]; [0; 3]] 0%nat).
  reflexivity.
Defined.

(** * The projection *)

Section ProjectionFacts.
Local Open Scope R_scope.

Lemma radians_eq (degrees : R) : (degrees * PI) / 180 = radians degrees.
Proof. unfold radians. field. Qed.

(** C9: the projection takes [(lon, lat)] in degrees to
    [(R lam, R log(tan(pi/4 + phi/2)))], [lam] and [phi] being the longitude
    and the latitude in radians and both coordinates scaled by the one
    constant [R = 6378137]. *)
Theorem C9_projection_formula (lon lat : R) :
  lonLatToMercator (lon, lat) = projectSpec R_earth lon lat /\
  R_earth = 6378137 /\
  fst (lonLatToMercator (lon, lat)) = R_earth * radians lon /\
  snd (lonLatToMercator (lon, lat)) =
  R_earth * ln (tan (PI / 4 + radians lat / 2)).
Proof.
  unfold lonLatToMercator, projectSpec. cbn [fst snd].
  rewrite !radians_eq. repeat split.
Qed.

(** The origin of the geographic coordinates is the origin of the plane. *)
Lemma lonLatToMercator_origin : lonLatToMercator (0, 0) = (0, 0).
Proof.
  unfold lonLatToMercator.
  replace (0 * PI / 180) with 0 by field.
  replace (PI / 4 + 0 / 2) with (PI / 4) by field.
  rewrite tan_PI4, ln_1. f_equal; ring.
Qed.

(** A distance, the square root of a squared distance, is at most [r] when
    [r] is not negative and the squared distance is at most the square
    of [r]. *)
Lemma sqrt_le_iff_squares (d2 r : R) :
  0 <= d2 -> (sqrt d2 <= r <-> 0 <= r /\ d2 <= r * r).
Proof.
  intro Hd. split.
  - intro Hle. pose proof (sqrt_pos d2) as Hpos.
    split; [lra|].
    rewrite <- (sqrt_sqrt d2 Hd) at 1.
    apply Rmult_le_compat; assumption.
  - intros [Hr Hle]. rewrite <- (sqrt_square r Hr).
    apply sqrt_le_1_alt, Hle.
Qed.

(** [withinRadius] is the check of the Euclidean distance against the
    radius. *)
Lemma withinRadius_euclidean (target p : point) (radius : Q) :
  withinRadius target radius p = true <->
  sqrt (Q2R (distanceSquared target p)) <= Q2R radius.
Proof.
  assert (Hd : 0 <= Q2R (distanceSquared target p)).
  { rewrite <- RMicromega.Q2R_0. apply Qle_Rle, distanceSquared_nonneg. }
  rewrite (sqrt_le_iff_squares _ _ Hd).
  unfold withinRadius. rewrite andb_true_iff, !Qle_bool_iff.
  rewrite <- Q2R_mult, <- RMicromega.Q2R_0.
  split; intros [H1 H2]; split;
    solve [apply Qle_Rle; assumption | apply Rle_Qle; assumption].
Qed.

End ProjectionFacts.

(** * The traced search of the components *)

Section TraceFacts.
Local Open Scope Q_scope.

Lemma skipn_nth_cons {A : Type} (d : A) (l : list A) :
  forall i, (i < length l)%nat -> skipn i l = nth i l d :: skipn (S i) l.
Proof.
  induction l as [|x l IH]; intros i Hi; simpl in Hi; [lia|].
  destruct i as [|i]; [reflexivity|].
  cbn [skipn nth]. destruct l as [|y l]; [simpl in Hi; lia|].
  apply IH. simpl in *. lia.
Qed.

Lemma distanceSq_loop_reduce (a b : point) (todo : nat) :
  forall i s,
    (todo + i = length a)%nat ->
    distanceSq_loop a b todo i s =
    reduce (fun s v i => let d := v - coord b i in s + d * d) (skipn i a) i s.
Proof.
  induction todo as [|todo IH]; intros i s Hlen.
  - rewrite skipn_all2 by lia. reflexivity.
  - rewrite (skipn_nth_cons 0 a i) by lia.
    cbn [distanceSq_loop reduce]. cbv zeta. rewrite IH by lia. reflexivity.
Qed.

Lemma distanceSq_distanceSquared (a b : point) :
  distanceSq a b = distanceSquared a b.
Proof.
  unfold distanceSq, distanceSquared.
  rewrite distanceSq_loop_reduce by lia. reflexivity.
Qed.

Lemma setBranched_at (b : bool) (before : list Step) (s : Step)
  (after : list Step) :
  setBranched (length before) b (before ++ s :: after) =
  before ++
  mkStep (id s) (stepPoint s) (stepAxis s) (diff s) (within s) b :: after.
Proof.
  induction before as [|x before IH]; [reflexivity|].
  cbn [length app setBranched]. now rewrite IH.
Qed.

Lemma dfsVisited_acc (target : point) (radius : Q) (node : KDNode) :
  forall depth kdVisited,
    dfsVisited target radius node depth kdVisited =
    (kdVisited + dfsVisited target radius node depth 0)%nat.
Proof.
  induction node as [|p axis l IHl r IHr]; intros depth kdVisited.
  - cbn [dfsVisited]. lia.
  - cbn [dfsVisited]. cbv zeta.
    destruct (ltb0 _), (Qle_bool (Qabs _) radius);
      repeat match goal with
        | |- context [dfsVisited target radius ?t ?d ?acc] =>
            lazymatch acc with
            | O => fail
            | _ => first [rewrite (IHl d acc) | rewrite (IHr d acc)]
            end
        end; lia.
Qed.

(** The results of the traced search are those of [rangeSearch]. *)
Lemma dfs_results (target : point) (radius : Q) (node : KDNode) :
  forall depth st,
    results (dfs target radius (radius * radius) node depth st) =
    rangeSearch node target radius depth (results st).
Proof.
  induction node as [|p axis l IHl r IHr]; intros depth st; [reflexivity|].
  cbn [dfs rangeSearch]. cbv zeta. cbn [results].
  rewrite distanceSq_distanceSquared.
  destruct (ltb0 _), (Qle_bool (Qabs _) radius);
    rewrite ?IHl, ?IHr; cbn [results]; rewrite ?IHl, ?IHr; reflexivity.
Qed.

Lemma filter_within_head (s : Step) (l : list Step) :
  map stepPoint (filter within (s :: l)) =
  (if within s then [stepPoint s] else []) ++
  map stepPoint (filter within l).
Proof. cbn [filter]. now destruct (within s). Qed.

(** The steps one call of [dfs] adds, and what it does to the counter. *)
Lemma dfs_steps (target : point) (radius : Q) (node : KDNode) :
  forall depth st,
    let st' := dfs target radius (radius * radius) node depth st in
    exists new,
      steps st' = steps st ++ new /\
      visitId st' = (visitId st + length new)%nat /\
      length new = dfsVisited target radius node depth 0 /\
      map id new = seq (S (visitId st)) (length new) /\
      Forall (stepRecords target radius) new /\
      Forall (fun s => In (stepPoint s) (treePoints node)) new /\
      map stepPoint (filter within new) =
      map nodePoint (rangeSearch node target radius depth []).
Proof.
  induction node as [|p axis l IHl r IHr]; intros depth st st'.
  { exists []. subst st'. cbn [dfs]. rewrite app_nil_r.
    repeat split; try constructor. cbn. lia. }
  subst st'. rewrite rangeSearch_Node. rewrite treePoints_Node.
  cbn [dfs dfsVisited]. cbv zeta. cbn [steps results visitId].
  rewrite distanceSq_distanceSquared.
  unfold matches. cbn [nodePoint].
  set (a := (depth mod length target)%nat).
  set (d := coord target a - coord p a).
  set (w := Qle_bool (distanceSquared target p) (radius * radius)).
  set (s0 := mkStep (S (visitId st)) p a d w false).
  set (st1 := mkTraceState (steps st ++ [s0]) _ (S (visitId st))).
  assert (Hs0 : forall b, b = Qle_bool (Qabs d) radius ->
            stepRecords target radius (mkStep (S (visitId st)) p a d w b)).
  { intros b Hb. unfold stepRecords. cbn. auto. }
  assert (Hnear : forall near far,
             (forall depth st,
                 let st' := dfs target radius (radius * radius) near depth st in
                 exists new,
                   steps st' = steps st ++ new /\
                   visitId st' = (visitId st + length new)%nat /\
                   length new = dfsVisited target radius near depth 0 /\
                   map id new = seq (S (visitId st)) (length new) /\
                   Forall (stepRecords target radius) new /\
                   Forall (fun s => In (stepPoint s) (treePoints near)) new /\
                   map stepPoint (filter within new) =
                   map nodePoint (rangeSearch near target radius depth [])) ->
             (forall depth st,
                 let st' := dfs target radius (radius * radius) far depth st in
                 exists new,
                   steps st' = steps st ++ new /\
                   visitId st' = (visitId st + length new)%nat /\
                   length new = dfsVisited target radius far depth 0 /\
                   map id new = seq (S (visitId st)) (length new) /\
                   Forall (stepRecords target radius) new /\
                   Forall (fun s => In (stepPoint s) (treePoints far)) new /\
                   map stepPoint (filter within new) =
                   map nodePoint (rangeSearch far target radius depth [])) ->
             (forall q, In q (treePoints near) \/ In q (treePoints far) ->
                        In q (treePoints l ++ treePoints r)) ->
             let st2 := dfs target radius (radius * radius) near (depth + 1) st1 in
             let b := Qle_bool (Qabs d) radius in
             let st3 := if b
                        then dfs target radius (radius * radius) far (depth + 1) st2
                        else st2 in
             exists new,
               setBranched (length (steps st)) b (steps st3) = steps st ++ new /\
               visitId st3 = (visitId st + length new)%nat /\
               length new =
               (if b
                then dfsVisited target radius far (depth + 1)
                       (dfsVisited target radius near (depth + 1) 1)
                else dfsVisited target radius near (depth + 1) 1) /\
               map id new = seq (S (visitId st)) (length new) /\
               Forall (stepRecords target radius) new /\
               Forall (fun s => In (stepPoint s)
                                  (p :: treePoints l ++ treePoints r)) new /\
               map stepPoint (filter within new) =
               (if w then [p] else []) ++
               map nodePoint
                 (rangeSearch near target radius (depth + 1) [] ++
                  (if b then rangeSearch far target radius (depth + 1) []
                   else []))).
  { intros near far IHn IHf Hsub st2 b st3.
    destruct (IHn (depth + 1)%nat st1)
      as (new1 & Hst1 & Hid1 & Hlen1 & Hids1 & Hrec1 & Hin1 & Hw1).
    fold st2 in Hst1, Hid1. cbn [steps visitId st1] in Hst1, Hid1.
    rewrite (dfsVisited_acc target radius near (depth + 1) 1).
    assert (Hin1' : Forall (fun s => In (stepPoint s)
                                    (p :: treePoints l ++ treePoints r)) new1).
    { eapply Forall_impl; [|exact Hin1]. intros s Hs. right. apply Hsub. auto. }
    subst st3. destruct b eqn:Eb.
    - destruct (IHf (depth + 1)%nat st2)
        as (new2 & Hst2 & Hid2 & Hlen2 & Hids2 & Hrec2 & Hin2 & Hw2).
      rewrite (dfsVisited_acc target radius far).
      exists (mkStep (S (visitId st)) p a d w true :: new1 ++ new2).
      rewrite Hst2, Hst1, <- !app_assoc. cbn [app].
      rewrite setBranched_at. subst s0. cbn [id stepPoint stepAxis diff within].
      rewrite Hid2, Hid1. cbn [length]. rewrite length_app.
      rewrite <- Hlen1, <- Hlen2.
      split; [reflexivity|]. split; [lia|]. split; [lia|].
      split; [|split; [|split]].
      + cbn [map id seq]. f_equal. rewrite map_app, seq_app.
        rewrite Hids1, Hids2, Hid1. reflexivity.
      + constructor; [apply Hs0; symmetry; exact Eb|].
        apply Forall_app. split; assumption.
      + constructor; [now left|]. apply Forall_app. split; [exact Hin1'|].
        eapply Forall_impl; [|exact Hin2]. intros s Hs. right. apply Hsub. auto.
      + rewrite filter_within_head. cbn [within stepPoint].
        rewrite filter_app, !map_app, Hw1, Hw2. reflexivity.
    - exists (mkStep (S (visitId st)) p a d w false :: new1).
      rewrite Hst1, <- !app_assoc. cbn [app].
      rewrite setBranched_at. subst s0. cbn [id stepPoint stepAxis diff within].
      rewrite Hid1. cbn [length]. rewrite <- Hlen1.
      split; [reflexivity|]. split; [lia|]. split; [lia|].
      split; [|split; [|split]].
      + cbn [map id seq]. f_equal. exact Hids1.
      + constructor; [apply Hs0; symmetry; exact Eb|exact Hrec1].
      + constructor; [now left|exact Hin1'].
      + rewrite filter_within_head. cbn [within stepPoint].
        rewrite app_nil_r, Hw1. reflexivity. }
  assert (Hw : map nodePoint (if w then [Node p axis l r] else []) =
               if w then [p] else []) by (destruct w; reflexivity).
  fold d. rewrite map_app, Hw. destruct (ltb0 d).
  - apply (Hnear l r IHl IHr). intros q [Hq|Hq]; apply in_or_app; auto.
  - apply (Hnear r l IHr IHl). intros q [Hq|Hq]; apply in_or_app; auto.
Qed.

Lemma dfsVisited_le_size (target : point) (radius : Q) (node : KDNode) :
  forall depth,
    (dfsVisited target radius node depth 0 <= length (treeNodes node))%nat.
Proof.
  induction node as [|p axis l IHl r IHr]; intro depth; [apply Nat.le_refl|].
  cbn [dfsVisited treeNodes length]. cbv zeta. rewrite length_app.
  pose proof (IHl (depth + 1)%nat). pose proof (IHr (depth + 1)%nat).
  destruct (ltb0 _), (Qle_bool (Qabs _) radius);
    repeat match goal with
      | |- context [dfsVisited target radius ?t ?d ?acc] =>
          lazymatch acc with
          | O => fail
          | _ => rewrite (dfsVisited_acc target radius t d acc)
          end
      end; lia.
Qed.

Lemma rangeSearchTrace_steps (root : KDNode) (target : point) (radius : Q) :
  let t := rangeSearchTrace root target radius in
  traceResults t = rangeSearch root target radius 0 [] /\
  visited t = length (traceSteps t) /\
  visited t = dfsVisited target radius root 0 0 /\
  map id (traceSteps t) = seq 1 (visited t) /\
  Forall (stepRecords target radius) (traceSteps t) /\
  Forall (fun s => In (stepPoint s) (treePoints root)) (traceSteps t) /\
  map stepPoint (filter within (traceSteps t)) = map nodePoint (traceResults t).
Proof.
  intro t. subst t. unfold rangeSearchTrace.
  cbn [traceResults traceSteps visited].
  destruct (dfs_steps target radius root 0 (mkTraceState [] [] 0))
    as (new & Hst & _ & Hlen & Hids & Hrec & Hin & Hw).
  cbn [steps visitId app] in Hst, Hids.
  rewrite dfs_results, Hst. cbn [results].
  repeat split; auto.
Qed.

(** X1: the traced search of the components returns, as [results], the
    array [rangeSearch] of [KdTree.ts] returns: the same nodes in the same
    order, whatever the tree, the target and the radius. *)
Theorem X1_trace_results_are_rangeSearch (root : KDNode) (target : point)
  (radius : Q) :
  traceResults (rangeSearchTrace root target radius) =
  rangeSearch root target radius 0 [].
Proof. apply rangeSearchTrace_steps. Qed.

(** X2: the steps of the trace are numbered [1, 2, ..., visited] in the
    order of the visits, and [visited] is their number. *)
Theorem X2_trace_ids_number_the_visits (root : KDNode) (target : point)
  (radius : Q) :
  let t := rangeSearchTrace root target radius in
  visited t = length (traceSteps t) /\
  map id (traceSteps t) = seq 1 (visited t).
Proof.
  intro t. destruct (rangeSearchTrace_steps root target radius)
    as (_ & Hv & _ & Hids & _). split; assumption.
Qed.

(** X3: every step of the finished trace records its own visit: [diff] is
    the signed distance of the target to the node's splitting line on the
    step's axis, [within] is the test of the squared distance against the
    squared radius, and [branched], which [dfs] writes into the array only
    after its recursive calls have returned, says whether [|diff| <= radius]
    sent the search into the far child; the point of the step is a point of
    the tree. *)
Theorem X3_trace_steps_record_their_visits (root : KDNode) (target : point)
  (radius : Q) :
  Forall
    (fun s =>
       In (stepPoint s) (treePoints root) /\
       diff s = coord target (stepAxis s) - coord (stepPoint s) (stepAxis s) /\
       within s =
         Qle_bool (distanceSquared target (stepPoint s)) (radius * radius) /\
       branched s = Qle_bool (Qabs (diff s)) radius)
    (traceSteps (rangeSearchTrace root target radius)).
Proof.
  destruct (rangeSearchTrace_steps root target radius)
    as (_ & _ & _ & _ & Hrec & Hin & _).
  rewrite Forall_forall in *. intros s Hs. split; [apply Hin, Hs|].
  apply (Hrec s Hs).
Qed.

(** X4: the points of the steps marked [within], in the order of the
    visits, are the points of the nodes in [results]: the trace and the
    result of the search agree. *)
Theorem X4_trace_within_steps_are_the_results (root : KDNode)
  (target : point) (radius : Q) :
  let t := rangeSearchTrace root target radius in
  map stepPoint (filter within (traceSteps t)) =
  map nodePoint (traceResults t).
Proof. intro t. apply rangeSearchTrace_steps. Qed.

(** X5: the number of visits the trace reports is the number the counting
    [dfs] of the benchmark route computes; it is at least the number of
    matches and at most the number of nodes of the tree, so that over a tree
    built from [points] the search never visits more nodes than the linear
    scan, which visits [points.length]. *)
Theorem X5_visits_between_matches_and_points (points : list point)
  (target : point) (radius : Q) :
  let root := buildKDTree points 0 in
  let kdVisited := dfsVisited target radius root 0 0 in
  visited (rangeSearchTrace root target radius) = kdVisited /\
  (length (rangeSearch root target radius 0 []) <= kdVisited)%nat /\
  (kdVisited <= length points)%nat.
Proof.
  intros root kdVisited.
  destruct (rangeSearchTrace_steps root target radius)
    as (Hres & Hv & Hk & _ & _ & _ & Hw).
  split; [exact Hk|]. split.
  - rewrite <- Hres. rewrite <- (length_map nodePoint), <- Hw, length_map.
    fold kdVisited in Hk. rewrite <- Hk, Hv. apply filter_length_le.
  - eapply Nat.le_trans; [apply dfsVisited_le_size|].
    rewrite <- treeNodes_length.
    apply Nat.eq_le_incl, Permutation_length, buildKDTree_perm.
Qed.

End TraceFacts.

(** * The shape of the built tree *)

Lemma buildKDTree_size (points : list point) (depth : nat) :
  length (treeNodes (buildKDTree points depth)) = length points.
Proof.
  rewrite <- treeNodes_length. apply Permutation_length, buildKDTree_perm.
Qed.

Lemma slice_lengths (sorted : list point) :
  let n := length sorted in
  let mid := (n / 2)%nat in
  (0 < n)%nat ->
  length (slice sorted 0 mid) = mid /\
  length (sliceFrom sorted (mid + 1)) = (n - (mid + 1))%nat.
Proof.
  intros n mid Hn.
  assert (Hmid : (mid < n)%nat) by (apply half_lt; exact Hn).
  split; [|apply sliceFrom_length].
  unfold slice. rewrite Nat.sub_0_r. cbn [skipn].
  apply firstn_length_le. unfold n in Hmid. lia.
Qed.

Lemma levels_mono (a b : nat) : (a <= b -> levels a <= levels b)%nat.
Proof.
  intro H. destruct a as [|a]; [apply Nat.le_0_l|].
  destruct b as [|b]; [lia|]. cbn [levels].
  apply le_n_S, Nat.log2_le_mono, H.
Qed.

Lemma levels_pos (n : nat) : (0 < n)%nat -> levels n = S (Nat.log2 n).
Proof. destruct n; [lia | reflexivity]. Qed.

Lemma levels_half (n : nat) : (0 < n)%nat -> levels n = S (levels (n / 2)).
Proof.
  intro Hn. rewrite (levels_pos n Hn). f_equal.
  destruct (Nat.even n) eqn:E.
  - apply Nat.even_spec in E. destruct E as [m Hm]. subst n.
    rewrite (Nat.mul_comm 2 m) at 2. rewrite Nat.div_mul by lia.
    rewrite levels_pos by lia. apply Nat.log2_double. lia.
  - rewrite <- Nat.negb_odd, negb_false_iff in E.
    apply Nat.odd_spec in E. destruct E as [m Hm]. subst n.
    replace ((2 * m + 1) / 2)%nat with m
      by (apply Nat.div_unique with (r := 1%nat); lia).
    destruct m as [|m]; [reflexivity|].
    rewrite levels_pos by lia. apply Nat.log2_succ_double. lia.
Qed.

(** X6: at every node of a tree of [buildKDTree] the left subtree has as
    many nodes as the right one, or one more: the tree is cut at its
    medians all the way down. *)
Theorem X6_built_tree_is_balanced (points : list point) (depth : nat) :
  medianBalanced (buildKDTree points depth).
Proof.
  apply buildKDTree_calls_ind with (points := points) (depth := depth);
    clear points depth.
  - intros; exact I.
  - intros p0 rest depth points axis sorted mid l r IHl IHr.
    cbn [medianBalanced]. split; [|split; assumption].
    unfold l, r. rewrite !buildKDTree_size.
    assert (Hn : (0 < length sorted)%nat)
      by (unfold sorted; rewrite sort_length; simpl; lia).
    destruct (slice_lengths sorted Hn) as [Hl Hr]. fold mid in Hl, Hr.
    rewrite Hl, Hr.
    pose proof (Nat.div_mod_eq (length sorted) 2) as Hdiv. fold mid in Hdiv.
    pose proof (Nat.mod_upper_bound (length sorted) 2 ltac:(lia)). lia.
Qed.

(** X7: a tree built from [n >= 1] points has [floor(log2 n) + 1] levels,
    and the tree built from no point has none: the depth of the recursion of
    a search is logarithmic in the number of points. *)
Theorem X7_built_tree_height (points : list point) (depth : nat) :
  height (buildKDTree points depth) = levels (length points).
Proof.
  apply buildKDTree_calls_ind with (points := points) (depth := depth);
    clear points depth.
  - intros; reflexivity.
  - intros p0 rest depth points axis sorted mid l r IHl IHr.
    cbn [height]. rewrite IHl, IHr.
    assert (Hlen : length sorted = length points) by apply sort_length.
    assert (Hn : (0 < length sorted)%nat) by (rewrite Hlen; simpl; lia).
    destruct (slice_lengths sorted Hn) as [Hl Hr]. fold mid in Hl, Hr.
    rewrite Hl, Hr.
    transitivity (levels (length sorted)); [|f_equal; exact Hlen].
    rewrite (levels_half (length sorted) Hn). fold mid.
    f_equal. apply Nat.max_l, levels_mono.
    pose proof (Nat.div_mod_eq (length sorted) 2) as Hdiv. fold mid in Hdiv.
    pose proof (Nat.mod_upper_bound (length sorted) 2 ltac:(lia)). lia.
Qed.

(** * Visits in the worst case *)

Lemma match_crosses_plane (target p : point) (radius : Q) (a : nat) :
  (a < length target)%nat -> 0 <= radius ->
  Qle_bool (distanceSquared target p) (radius * radius) = true ->
  Qle_bool (Qabs (coord target a - coord p a)) radius = true.
Proof.
  intros Ha Hr Hm.
  destruct (Qle_bool (Qabs (coord target a - coord p a)) radius) eqn:E;
    [reflexivity|].
  apply Qle_bool_false in E.
  rewrite (axis_gap_misses target p radius a Ha Hr E) in Hm. discriminate.
Qed.

(** X8: in exact arithmetic, when every node of a tree is within a radius
    (not negative) of the target, nothing is pruned: the search visits every
    node and returns every node, as a linear scan would.  (On doubles a
    square can underflow to zero and a node pass the test of line 48 while
    line 56 prunes it.) *)
Theorem X8_nothing_pruned_when_all_match (root : KDNode) (target : point)
  (radius : Q) (depth : nat) :
  (0 < length target)%nat -> 0 <= radius ->
  Forall (fun n => matches target radius n = true) (treeNodes root) ->
  dfsVisited target radius root depth 0 = length (treeNodes root) /\
  Permutation (rangeSearch root target radius depth []) (treeNodes root).
Proof.
  intros Hk Hr. revert depth.
  induction root as [|p axis l IHl r IHr]; intros depth Hall.
  - split; [reflexivity|constructor].
  - change (treeNodes (Node p axis l r))
      with (Node p axis l r :: treeNodes l ++ treeNodes r) in *.
    apply Forall_cons_iff in Hall. destruct Hall as [Hroot Hall].
    apply Forall_app in Hall. destruct Hall as [Hl Hr'].
    destruct (IHl (depth + 1)%nat Hl) as [Hvl Hpl].
    destruct (IHr (depth + 1)%nat Hr') as [Hvr Hpr].
    assert (Ha : (depth mod length target < length target)%nat)
      by (apply Nat.mod_upper_bound; lia).
    pose proof (match_crosses_plane target p radius _ Ha Hr Hroot) as Hcross.
    split.
    + cbn [dfsVisited length]. cbv zeta. rewrite Hcross, length_app.
      destruct (ltb0 _);
        rewrite dfsVisited_acc, (dfsVisited_acc _ _ _ _ 1%nat), Hvl, Hvr; lia.
    + rewrite rangeSearch_Node. rewrite Hroot, Hcross. cbn [app].
      apply perm_skip. destruct (ltb0 _).
      * apply Permutation_app; assumption.
      * eapply perm_trans; [apply Permutation_app_comm|].
        apply Permutation_app; assumption.
Qed.

Lemma X8_nothing_pruned_when_all_match_witness :
  let root := buildKDTree [[0; 0]; [10; 0]; [0; 10]] 0 in
  dfsVisited [1; 1] 20 root 0 0 = length (treeNodes root) /\
  Permutation (rangeSearch root [1; 1] 20 0 []) (treeNodes root).
Proof.
  apply (X8_nothing_pruned_when_all_match
           (buildKDTree [[0; 0]; [10; 0]; [0; 10]] 0) [1; 1] 20 0).
  - simpl. lia.
  - discriminate.
  - repeat constructor.
Defined.

(** * The pruning percentage *)

Lemma ratio_le_1 (v n : nat) :
  (0 < n)%nat -> (v <= n)%nat ->
  0 <= inject_Z (Z.of_nat v) / inject_Z (Z.of_nat n) <= 1.
Proof.
  intros Hn Hv.
  assert (Hn' : 0 < inject_Z (Z.of_nat n))
    by (rewrite <- (Zlt_Qlt 0); lia).
  assert (Hv' : 0 <= inject_Z (Z.of_nat v))
    by (rewrite <- (Zle_Qle 0); lia).
  split.
  - apply Qle_shift_div_l; [exact Hn'|]. lra.
  - apply Qle_shift_div_r; [exact Hn'|].
    rewrite Qmult_1_l, <- Zle_Qle. lia.
Qed.

(** X9: the pruning percentage the component shows for a search over the
    tree built from the restaurants is between 0 and 100, and when there is
    a restaurant it is [100 - visited / count * 100] exactly: [Math.max]
    never has to clip it, since the search visits no more nodes than there
    are points. *)
Theorem X9_pruning_percentage (points : list point) (target : point)
  (radius : Q) :
  let count := length points in
  let v := visited (rangeSearchTrace (buildKDTree points 0) target radius) in
  0 <= pruningPct v count <= 100 /\
  (points <> [] ->
   pruningPct v count ==
   100 - (inject_Z (Z.of_nat v) / inject_Z (Z.of_nat count)) * 100).
Proof.
  intros count v.
  assert (Hle : (v <= count)%nat).
  { unfold v, count.
    destruct (rangeSearchTrace_steps (buildKDTree points 0) target radius)
      as (_ & _ & Hk & _).
    rewrite Hk, <- (buildKDTree_size points 0). apply dfsVisited_le_size. }
  unfold pruningPct. destruct (Nat.ltb_spec 0 count) as [Hpos|Hzero].
  - destruct (ratio_le_1 v count Hpos Hle) as [H0 H1].
    set (q := inject_Z (Z.of_nat v) / inject_Z (Z.of_nat count)) in *.
    assert (Hmax : Qmax 0 (100 - q * 100) == 100 - q * 100)
      by (apply Q.max_r; lra).
    split; [rewrite Hmax; lra | intros _; exact Hmax].
  - split; [lra|]. intro Hne. destruct points; [congruence|].
    simpl in count. lia.
Qed.

(** * More on [distanceSquared] and [rangeSearch] *)

Lemma skipn_cons_inv {A : Type} (d : A) (l : list A) :
  forall i x rest,
    skipn i l = x :: rest -> nth i l d = x /\ skipn (S i) l = rest.
Proof.
  induction l as [|y l IH]; intros i x rest H.
  - destruct i; discriminate H.
  - destruct i as [|i].
    + cbn in H. injection H as -> ->. split; reflexivity.
    + cbn [skipn] in H. apply IH in H. exact H.
Qed.

Lemma sumSquares_sym (p q : point) (l1 : list Q) :
  forall l2 i,
    length l1 = length l2 -> skipn i p = l1 -> skipn i q = l2 ->
    sumSquares l1 i q == sumSquares l2 i p.
Proof.
  induction l1 as [|x l1 IH]; intros [|y l2] i Hlen Hp Hq;
    try discriminate Hlen; [reflexivity|].
  destruct (skipn_cons_inv 0 p i x l1 Hp) as [Hx Hp'].
  destruct (skipn_cons_inv 0 q i y l2 Hq) as [Hy Hq'].
  cbn [sumSquares]. unfold coord. rewrite Hx, Hy.
  rewrite (IH l2 (S i)) by (try assumption; simpl in Hlen; lia).
  ring.
Qed.

(** X10: the squared distance does not depend on the order of its two
    points, when they have the same number of coordinates. *)
Theorem X10_distanceSquared_symmetric (p q : point) :
  length p = length q -> distanceSquared p q == distanceSquared q p.
Proof.
  intro Hlen. rewrite !distanceSquared_sum.
  apply sumSquares_sym; [exact Hlen | reflexivity | reflexivity].
Qed.

Lemma X10_distanceSquared_symmetric_witness :
  distanceSquared [3; 4] [0; 1] == distanceSquared [0; 1] [3; 4].
Proof.
  apply (X10_distanceSquared_symmetric [3; 4] [0; 1]). reflexivity.
Defined.

Lemma Qsquare_zero (x : Q) : x * x == 0 -> x == 0.
Proof.
  intro H. destruct (Qeq_dec x 0) as [E|E]; [exact E|].
  destruct (Qmult_integral _ _ H); assumption.
Qed.

Lemma sumSquares_zero (q : point) (l1 : list Q) :
  forall l2 i,
    length l1 = length l2 -> skipn i q = l2 ->
    (sumSquares l1 i q == 0 <-> Forall2 Qeq l1 l2).
Proof.
  induction l1 as [|x l1 IH]; intros [|y l2] i Hlen Hq;
    try discriminate Hlen.
  - split; [constructor | reflexivity].
  - destruct (skipn_cons_inv 0 q i y l2 Hq) as [Hy Hq'].
    cbn [sumSquares]. unfold coord. rewrite Hy.
    pose proof (Qsquare_nonneg (x - y)) as Hsq.
    pose proof (sumSquares_nonneg q l1 (S i)) as Hrest.
    assert (Hlen' : length l1 = length l2) by (simpl in Hlen; lia).
    split.
    + intro H.
      assert (H1 : (x - y) * (x - y) == 0) by lra.
      assert (H2 : sumSquares l1 (S i) q == 0) by lra.
      constructor; [apply Qsquare_zero in H1; lra|].
      apply (IH l2 (S i) Hlen' Hq'), H2.
    + intro H. apply Forall2_cons_iff in H. destruct H as [Hxy Hall].
      apply (IH l2 (S i) Hlen' Hq') in Hall.
      rewrite Hall, Hxy. ring.
Qed.

(** X11: two points with the same number of coordinates are at squared
    distance zero exactly when their coordinates are equal, and the squared
    distance is never negative. *)
Theorem X11_distanceSquared_zero_iff_same_point (p q : point) :
  length p = length q ->
  0 <= distanceSquared p q /\
  (distanceSquared p q == 0 <-> Forall2 Qeq p q).
Proof.
  intro Hlen. split; [apply distanceSquared_nonneg|].
  rewrite distanceSquared_sum.
  apply sumSquares_zero; [exact Hlen | reflexivity].
Qed.

Lemma X11_distanceSquared_zero_iff_same_point_witness :
  0 <= distanceSquared [1; 2] [1; 2] /\
  (distanceSquared [1; 2] [1; 2] == 0 <-> Forall2 Qeq [1; 2] [1; 2]).
Proof.
  apply (X11_distanceSquared_zero_iff_same_point [1; 2] [1; 2]). reflexivity.
Defined.

(** X12: in exact arithmetic, the matches of a search do not depend on the
    order in which the points were given to [buildKDTree]: two lists of the
    same planar points give the same points back, with the same
    multiplicities, for every planar target and every radius that is not
    negative.  (On doubles the squares of the test of line 48 can underflow
    and the matches then depend on which nodes line 56 prunes.) *)
Theorem X12_search_ignores_input_order (points points' : list point)
  (target : point) (radius : Q) :
  Permutation points points' ->
  Forall planar points -> planar target -> 0 <= radius ->
  Permutation
    (map nodePoint (rangeSearch (buildKDTree points 0) target radius 0 []))
    (map nodePoint (rangeSearch (buildKDTree points' 0) target radius 0 [])).
Proof.
  intros Hperm Hpts Htarget Hr.
  assert (Hpts' : Forall planar points')
    by (eapply Permutation_Forall; eassumption).
  eapply perm_trans;
    [apply (rangeSearch_buildKDTree 2); try assumption; lia|].
  eapply perm_trans; [apply filter_perm, Hperm|].
  apply Permutation_sym.
  apply (rangeSearch_buildKDTree 2); try assumption; lia.
Qed.

Lemma X12_search_ignores_input_order_witness :
  Permutation
    (map nodePoint
       (rangeSearch (buildKDTree [[0; 0]; [10; 0]; [0; 10]] 0) [1; 1] 10 0 []))
    (map nodePoint
       (rangeSearch (buildKDTree [[0; 10]; [0; 0]; [10; 0]] 0) [1; 1] 10 0 [])).
Proof.
  apply (X12_search_ignores_input_order
           [[0; 0]; [10; 0]; [0; 10]] [[0; 10]; [0; 0]; [10; 0]] [1; 1] 10).
  - apply Permutation_sym.
    apply (Permutation_cons_append [[0; 0]; [10; 0]] [0; 10]).
  - repeat constructor.
  - reflexivity.
  - discriminate.
Defined.

(** X13: over a tree built from planar points, a larger radius loses no
    match: every point found with a radius (not negative) is found with
    every larger one. *)
Theorem X13_larger_radius_keeps_matches (points : list point)
  (target : point) (radius radius' : Q) (p : point) :
  Forall planar points -> planar target ->
  0 <= radius -> radius <= radius' ->
  In p (map nodePoint (rangeSearch (buildKDTree points 0) target radius 0 [])) ->
  In p (map nodePoint (rangeSearch (buildKDTree points 0) target radius' 0 [])).
Proof.
  intros Hpts Htarget Hr Hle Hin.
  assert (Hr' : 0 <= radius') by lra.
  pose proof (rangeSearch_buildKDTree 2 points target radius 0
                ltac:(lia) Hpts Htarget Hr) as H1.
  pose proof (rangeSearch_buildKDTree 2 points target radius' 0
                ltac:(lia) Hpts Htarget Hr') as H2.
  apply (Permutation_in _ H1) in Hin.
  apply (Permutation_in _ (Permutation_sym H2)).
  unfold bruteForce in *. apply filter_In in Hin. destruct Hin as [Hp Hw].
  apply filter_In. split; [exact Hp|].
  unfold withinRadius in *. apply andb_true_iff in Hw. destruct Hw as [_ Hw].
  apply Qle_bool_iff in Hw. apply andb_true_iff.
  split; apply Qle_bool_iff; [exact Hr'|].
  assert (radius * radius <= radius' * radius')
    by (apply Qmult_le_compat_nonneg; split; assumption).
  lra.
Qed.

Lemma X13_larger_radius_keeps_matches_witness :
  In [0; 0]
    (map nodePoint
       (rangeSearch (buildKDTree [[0; 0]; [10; 0]; [0; 10]] 0) [1; 1] 5 0 [])).
Proof.
  apply (X13_larger_radius_keeps_matches
           [[0; 0]; [10; 0]; [0; 10]] [1; 1] 2 5 [0; 0]).
  - repeat constructor.
  - reflexivity.
  - discriminate.
  - discriminate.
  - vm_compute. left. reflexivity.
Defined.

(** X14: [rangeSearch] only appends to the array [results] it is given: what
    the array held comes first, unchanged, followed by what the search finds
    when started with an empty array. *)
Theorem X14_rangeSearch_appends_to_results (root : KDNode) (target : point)
  (radius : Q) (depth : nat) (results : list KDNode) :
  rangeSearch root target radius depth results =
  results ++ rangeSearch root target radius depth [].
Proof. apply rangeSearch_acc. Qed.

(** * The geodesic distance *)

Section GeoFacts.
Local Open Scope R_scope.

Lemma toRad_minus (x y : R) : toRad (x - y) = toRad x - toRad y.
Proof. unfold toRad. field. Qed.

Lemma haversineMeters_unfold (lat1 lon1 lat2 lon2 : R) :
  haversineMeters lat1 lon1 lat2 lon2 =
  6371008.8 *
  (2 * atan2 (sqrt (haversineA lat1 lon1 lat2 lon2))
         (sqrt (1 - haversineA lat1 lon1 lat2 lon2))).
Proof. reflexivity. Qed.

Lemma cos_half_sqr (x : R) : cos (x / 2) ^ 2 = (1 + cos x) / 2.
Proof.
  replace x with (2 * (x / 2)) at 2 by field.
  rewrite cos_2a_cos. field.
Qed.

Lemma sin_half_sqr (x : R) : sin (x / 2) ^ 2 = (1 - cos x) / 2.
Proof.
  replace x with (2 * (x / 2)) at 2 by field.
  rewrite cos_2a_sin. field.
Qed.

Lemma cos_product (x y : R) :
  cos x * cos y = (cos (y - x) + cos (y + x)) / 2.
Proof. rewrite cos_minus, cos_plus. field. Qed.

Lemma sqr_sin_bound (x : R) : 0 <= sin x ^ 2 <= 1.
Proof. pose proof (SIN_bound x). nra. Qed.

Lemma haversineA_bounds (lat1 lon1 lat2 lon2 : R) :
  0 <= haversineA lat1 lon1 lat2 lon2 <= 1.
Proof.
  unfold haversineA. rewrite toRad_minus.
  set (p1 := toRad lat1). set (p2 := toRad lat2).
  set (s2 := sin (toRad (lon2 - lon1) / 2) ^ 2).
  assert (Hs2 : 0 <= s2 <= 1) by apply sqr_sin_bound.
  rewrite sin_half_sqr, cos_product.
  pose proof (COS_bound (p2 - p1)). pose proof (COS_bound (p2 + p1)).
  nra.
Qed.

Lemma atan2_quadrant (y x : R) :
  0 <= y -> 0 <= x -> 0 <= atan2 y x <= PI / 2.
Proof.
  intros Hy Hx. unfold atan2. pose proof PI_RGT_0.
  destruct (Rlt_dec 0 x) as [Hpos|Hnpos].
  - assert (H0 : 0 <= y / x)
      by (apply Rmult_le_pos; [exact Hy | left; apply Rinv_0_lt_compat, Hpos]).
    pose proof (atan_bound (y / x)). split; [|lra].
    destruct H0 as [H0|H0]; [|rewrite <- H0, atan_0; lra].
    pose proof (atan_increasing 0 (y / x) H0). rewrite atan_0 in *. lra.
  - destruct (Rlt_dec x 0); [lra|].
    destruct (Rlt_dec 0 y); [lra|].
    destruct (Rlt_dec y 0); lra.
Qed.

(** X15: the quantity [a] of [haversineMeters] is between 0 and 1 for all
    coordinates, so that neither [Math.sqrt(a)] nor [Math.sqrt(1 - a)] is
    taken of a negative number; the distance is never negative and never
    more than half the circumference of the sphere, [pi * 6371008.8]. *)
Theorem X15_haversine_range (lat1 lon1 lat2 lon2 : R) :
  0 <= haversineA lat1 lon1 lat2 lon2 <= 1 /\
  0 <= haversineMeters lat1 lon1 lat2 lon2 <= PI * 6371008.8.
Proof.
  pose proof (haversineA_bounds lat1 lon1 lat2 lon2) as Ha.
  split; [exact Ha|]. rewrite haversineMeters_unfold.
  set (a := haversineA lat1 lon1 lat2 lon2) in *.
  assert (Hq : 0 <= atan2 (sqrt a) (sqrt (1 - a)) <= PI / 2)
    by (apply atan2_quadrant; apply sqrt_pos).
  lra.
Qed.

(** X16: the geodesic distance of a point to itself is zero. *)
Theorem X16_haversine_same_point (lat lon : R) :
  haversineMeters lat lon lat lon = 0.
Proof.
  rewrite haversineMeters_unfold.
  assert (Ha : haversineA lat lon lat lon = 0).
  { unfold haversineA, toRad.
    replace ((lat - lat) * PI / 180 / 2) with 0 by field.
    replace ((lon - lon) * PI / 180 / 2) with 0 by field.
    rewrite sin_0. ring. }
  rewrite Ha, Rminus_0_r, sqrt_0, sqrt_1.
  unfold atan2. destruct (Rlt_dec 0 1); [|lra].
  replace (0 / 1) with 0 by field. rewrite atan_0. ring.
Qed.

Lemma sin_half_neg_sqr (x y : R) :
  sin (toRad (x - y) / 2) ^ 2 = sin (toRad (y - x) / 2) ^ 2.
Proof.
  replace (toRad (x - y) / 2) with (- (toRad (y - x) / 2))
    by (unfold toRad; field).
  rewrite sin_neg. ring.
Qed.

(** X17: the geodesic distance is symmetric: from the first point to the
    second it is what it is from the second to the first. *)
Theorem X17_haversine_symmetric (lat1 lon1 lat2 lon2 : R) :
  haversineMeters lat1 lon1 lat2 lon2 = haversineMeters lat2 lon2 lat1 lon1.
Proof.
  rewrite !haversineMeters_unfold.
  assert (Ha : haversineA lat1 lon1 lat2 lon2 = haversineA lat2 lon2 lat1 lon1).
  { unfold haversineA.
    rewrite (sin_half_neg_sqr lat2 lat1), (sin_half_neg_sqr lon2 lon1). ring. }
  now rewrite Ha.
Qed.

(** * The linear scans *)

Lemma Rleb_true (x y : R) : Rleb x y = true <-> x <= y.
Proof. unfold Rleb. destruct (Rle_dec x y); split; intro; auto; discriminate. Qed.

(** Whether the point at index [j] is within the radius of the center. *)
Lemma linearSearchGeo_loop_filter (centerLatLon : R * R) (radiusMeters : R)
  (latlons : list (R * R)) :
  forall i resIdx,
    linearSearchGeo_loop latlons centerLatLon radiusMeters i resIdx =
    resIdx ++
    filter
      (fun j =>
         Rleb (haversineMeters (fst centerLatLon) (snd centerLatLon)
                 (fst (nth (j - i) latlons (0, 0)))
                 (snd (nth (j - i) latlons (0, 0)))) radiusMeters)
      (seq i (length latlons)).
Proof.
  induction latlons as [|[plat plon] rest IH]; intros i resIdx.
  - cbn. now rewrite app_nil_r.
  - cbn [linearSearchGeo_loop length seq filter]. cbv zeta.
    rewrite Nat.sub_diag. cbn [nth fst snd].
    rewrite IH.
    set (w := Rleb _ radiusMeters).
    assert (Hext :
      filter
        (fun j =>
           Rleb (haversineMeters (fst centerLatLon) (snd centerLatLon)
                   (fst (nth (j - S i) rest (0, 0)))
                   (snd (nth (j - S i) rest (0, 0)))) radiusMeters)
        (seq (S i) (length rest)) =
      filter
        (fun j =>
           Rleb (haversineMeters (fst centerLatLon) (snd centerLatLon)
                   (fst (nth (j - i) ((plat, plon) :: rest) (0, 0)))
                   (snd (nth (j - i) ((plat, plon) :: rest) (0, 0))))
             radiusMeters)
        (seq (S i) (length rest))).
    { apply filter_ext_in. intros j Hj. apply in_seq in Hj.
      replace (j - i)%nat with (S (j - S i)) by lia. reflexivity. }
    rewrite Hext. destruct w; [now rewrite <- app_assoc | reflexivity].
Qed.

Lemma seq_sorted (len : nat) : forall a, StronglySorted lt (seq a len).
Proof.
  induction len as [|len IH]; intro a; cbn [seq]; constructor; [apply IH|].
  apply Forall_forall. intros j Hj. apply in_seq in Hj. lia.
Qed.

Lemma filter_sorted {A : Type} (R : A -> A -> Prop) (f : A -> bool)
  (l : list A) :
  StronglySorted R l -> StronglySorted R (filter f l).
Proof.
  induction 1 as [|x l Hs IH Hx]; cbn [filter]; [constructor|].
  destruct (f x); [|exact IH]. constructor; [exact IH|].
  apply Forall_forall. intros y Hy. apply filter_In in Hy.
  rewrite Forall_forall in Hx. apply Hx, Hy.
Qed.

(** X18: the linear scan returns exactly the indices of the points whose
    geodesic distance to the center is at most the radius, each once and in
    increasing order. *)
Theorem X18_linearSearchGeo_indices (latlons : list (R * R))
  (centerLatLon : R * R) (radiusMeters : R) :
  let found := linearSearchGeo latlons centerLatLon radiusMeters in
  StronglySorted lt found /\
  (forall i,
      In i found <->
      (i < length latlons)%nat /\
      haversineMeters (fst centerLatLon) (snd centerLatLon)
        (fst (nth i latlons (0, 0))) (snd (nth i latlons (0, 0))) <=
      radiusMeters).
Proof.
  intro found. subst found. unfold linearSearchGeo.
  rewrite linearSearchGeo_loop_filter. cbn [app]. split.
  - apply filter_sorted, seq_sorted.
  - intro i. rewrite filter_In, in_seq, Rleb_true, Nat.sub_0_r.
    split; intros [H1 H2]; (split; [lia | exact H2]).
Qed.

Lemma linearTrace_loop_run (projectedPoints : list (list R))
  (latLonPoints : list (R * R)) (centerLatLon : R * R) (radiusMeters : R)
  (todo : nat) :
  forall i steps resultsIdx,
    (i + todo <= length latLonPoints)%nat ->
    let w j :=
      Rleb (haversineMeters (fst centerLatLon) (snd centerLatLon)
              (fst (nth j latLonPoints (0, 0)))
              (snd (nth j latLonPoints (0, 0)))) radiusMeters in
    linearTrace_loop projectedPoints latLonPoints centerLatLon radiusMeters
      todo i steps resultsIdx =
    Some
      (steps ++
       map (fun j =>
              mkLinStep (j + 1) (nth j projectedPoints []) (-1) 0 (w j) false)
         (seq i todo),
       resultsIdx ++ filter w (seq i todo)).
Proof.
  induction todo as [|todo IH]; intros i steps resultsIdx Hlen w.
  - cbn. now rewrite !app_nil_r.
  - cbn [linearTrace_loop seq map filter].
    destruct (nth_error latLonPoints i) as [[plat plon]|] eqn:E;
      [|apply nth_error_None in E; lia].
    assert (Hnth : nth i latLonPoints (0, 0) = (plat, plon))
      by (apply nth_error_nth; exact E).
    cbv zeta. rewrite IH by lia. fold w.
    assert (Hw : w i = Rleb (haversineMeters (fst centerLatLon)
                               (snd centerLatLon) plat plon) radiusMeters)
      by (unfold w; now rewrite Hnth).
    rewrite <- Hw. rewrite <- app_assoc. cbn [app].
    destruct (w i); [now rewrite <- app_assoc | reflexivity].
Qed.

Lemma linearTrace_loop_throws (projectedPoints : list (list R))
  (latLonPoints : list (R * R)) (centerLatLon : R * R) (radiusMeters : R)
  (todo : nat) :
  forall i steps resultsIdx,
    (i <= length latLonPoints < i + todo)%nat ->
    linearTrace_loop projectedPoints latLonPoints centerLatLon radiusMeters
      todo i steps resultsIdx = None.
Proof.
  induction todo as [|todo IH]; intros i steps resultsIdx Hlen; [lia|].
  cbn [linearTrace_loop].
  destruct (nth_error latLonPoints i) as [[plat plon]|] eqn:E;
    [|reflexivity].
  apply IH. assert (nth_error latLonPoints i <> None) as Hi by congruence.
  apply nth_error_Some in Hi. lia.
Qed.

Lemma map_nth_seq {A : Type} (d : A) (l : list A) :
  map (fun j => nth j l d) (seq 0 (length l)) = l.
Proof.
  induction l as [|x l IH]; [reflexivity|].
  cbn [length seq map nth]. f_equal.
  rewrite <- seq_shift, map_map. exact IH.
Qed.

(** X19: given a geographic point for every projected point, the traced
    linear scan visits every point: it makes one step for each projected
    point, numbered [1, 2, ...] and carrying the points in their order, with
    axis [-1], no [diff] and no branching; its [resultsIdx] are the indices
    of the steps marked [within], and they are the indices [linearSearchGeo]
    returns for the same points. *)
Theorem X19_linear_trace_visits_every_point (projectedPoints : list (list R))
  (latLonPoints : list (R * R)) (centerLatLon : R * R) (radiusMeters : R) :
  (length projectedPoints <= length latLonPoints)%nat ->
  exists t,
    linearRangeSearchTraceGeo projectedPoints latLonPoints centerLatLon
      radiusMeters = Some t /\
    linVisited t = length projectedPoints /\
    length (linSteps t) = length projectedPoints /\
    map linId (linSteps t) = seq 1 (length projectedPoints) /\
    map linPoint (linSteps t) = projectedPoints /\
    Forall (fun s => linAxis s = (-1)%Z /\ linDiff s = 0 /\
                     linBranched s = false) (linSteps t) /\
    map (fun s => (linId s - 1)%nat) (filter linWithin (linSteps t)) =
    linResultsIdx t /\
    linResultsIdx t =
    linearSearchGeo (firstn (length projectedPoints) latLonPoints)
      centerLatLon radiusMeters.
Proof.
  intro Hlen. unfold linearRangeSearchTraceGeo.
  rewrite linearTrace_loop_run by (simpl; exact Hlen). cbn [app].
  set (w := fun j : nat => Rleb _ radiusMeters).
  set (mk := fun j : nat =>
               mkLinStep (j + 1) (nth j projectedPoints []) (-1) 0 (w j) false).
  set (count := length projectedPoints) in *.
  eexists. split; [reflexivity|]. cbn [linVisited linSteps linResultsIdx].
  rewrite length_map, length_seq.
  split; [reflexivity|]. split; [reflexivity|]. split; [|split; [|split; [|split]]].
  - rewrite map_map. cbn [mk linId]. rewrite <- seq_shift.
    apply map_ext. intro j. lia.
  - rewrite map_map. cbn [mk linPoint]. apply map_nth_seq.
  - apply Forall_forall. intros s Hs. apply in_map_iff in Hs.
    destruct Hs as (j & <- & _). cbn. auto.
  - rewrite filter_map_comm, map_map. cbn [mk linWithin linId].
    rewrite (map_ext _ (fun j => j)) by (intro j; lia).
    apply map_id.
  - unfold linearSearchGeo. rewrite linearSearchGeo_loop_filter. cbn [app].
    rewrite length_firstn, Nat.min_l by exact Hlen. fold count.
    apply filter_ext_in. intros j Hj. apply in_seq in Hj.
    unfold w. rewrite Nat.sub_0_r, nth_firstn.
    destruct (Nat.ltb_spec j count); [reflexivity | lia].
Qed.

Lemma X19_linear_trace_visits_every_point_witness :
  exists t,
    linearRangeSearchTraceGeo [[1; 2]] [(0, 0); (1, 1)] (0, 0) 10 = Some t /\
    linVisited t = length [[1; 2]] /\
    length (linSteps t) = length [[1; 2]] /\
    map linId (linSteps t) = seq 1 (length [[1; 2]]) /\
    map linPoint (linSteps t) = [[1; 2]] /\
    Forall (fun s => linAxis s = (-1)%Z /\ linDiff s = 0 /\
                     linBranched s = false) (linSteps t) /\
    map (fun s => (linId s - 1)%nat) (filter linWithin (linSteps t)) =
    linResultsIdx t /\
    linResultsIdx t =
    linearSearchGeo (firstn (length [[1; 2]]) [(0, 0); (1, 1)]) (0, 0) 10.
Proof.
  apply (X19_linear_trace_visits_every_point
           [[1; 2]] [(0, 0); (1, 1)] (0, 0) 10).
  simpl. lia.
Defined.

(** X20: with fewer geographic points than projected points the traced
    linear scan does not return: the destructuring of the missing element
    throws. *)
Theorem X20_linear_trace_throws_on_missing_point
  (projectedPoints : list (list R)) (latLonPoints : list (R * R))
  (centerLatLon : R * R) (radiusMeters : R) :
  (length latLonPoints < length projectedPoints)%nat ->
  linearRangeSearchTraceGeo projectedPoints latLonPoints centerLatLon
    radiusMeters = None.
Proof.
  intro Hlen. unfold linearRangeSearchTraceGeo.
  rewrite linearTrace_loop_throws; [reflexivity|]. lia.
Qed.

Lemma X20_linear_trace_throws_on_missing_point_witness :
  linearRangeSearchTraceGeo [[1; 2]; [3; 4]] [(0, 0)] (0, 0) 10 = None.
Proof.
  apply (X20_linear_trace_throws_on_missing_point
           [[1; 2]; [3; 4]] [(0, 0)] (0, 0) 10).
  simpl. lia.
Defined.

(** * The statistics *)

Lemma fold_sum_acc (g : R -> R) (l : list R) :
  forall acc,
    fold_left (fun a b => a + g b) l acc =
    acc + fold_left (fun a b => a + g b) l 0.
Proof.
  induction l as [|x l IH]; intro acc; cbn [fold_left]; [ring|].
  rewrite IH, (IH (0 + g x)). ring.
Qed.

Lemma fold_sum_cons (g : R -> R) (x : R) (l : list R) :
  fold_left (fun a b => a + g b) (x :: l) 0 =
  g x + fold_left (fun a b => a + g b) l 0.
Proof. cbn [fold_left]. rewrite fold_sum_acc. ring. Qed.

Lemma fold_sum_bounds (g : R -> R) (m M : R) (l : list R) :
  Forall (fun b => m <= g b <= M) l ->
  INR (length l) * m <= fold_left (fun a b => a + g b) l 0 <=
  INR (length l) * M.
Proof.
  induction 1 as [|x l Hx _ IH].
  - cbn. lra.
  - rewrite fold_sum_cons. cbn [length]. rewrite S_INR. lra.
Qed.

Lemma fold_sum_ext (g h : R -> R) (l : list R) :
  Forall (fun b => g b = h b) l ->
  fold_left (fun a b => a + g b) l 0 = fold_left (fun a b => a + h b) l 0.
Proof.
  induction 1 as [|x l Hx _ IH]; [reflexivity|].
  rewrite !fold_sum_cons. now rewrite Hx, IH.
Qed.

Lemma fold_sum_map (g f : R -> R) (l : list R) :
  fold_left (fun a b => a + g b) (map f l) 0 =
  fold_left (fun a b => a + g (f b)) l 0.
Proof.
  induction l as [|x l IH]; [reflexivity|].
  cbn [map]. rewrite !fold_sum_cons. now rewrite IH.
Qed.

Lemma fold_sum_affine (g : R -> R) (k c : R) (l : list R) :
  fold_left (fun a b => a + (k * g b + c)) l 0 =
  k * fold_left (fun a b => a + g b) l 0 + INR (length l) * c.
Proof.
  induction l as [|x l IH].
  - cbn. ring.
  - rewrite !fold_sum_cons. cbn [length]. rewrite S_INR, IH. ring.
Qed.

Lemma fold_sum_zero (g : R -> R) (l : list R) :
  Forall (fun b => 0 <= g b) l ->
  fold_left (fun a b => a + g b) l 0 = 0 ->
  Forall (fun b => g b = 0) l.
Proof.
  induction 1 as [|x l Hx Hall IH]; intro Hsum; [constructor|].
  rewrite fold_sum_cons in Hsum.
  assert (Hrest : 0 <= fold_left (fun a b => a + g b) l 0).
  { clear IH Hsum. induction Hall as [|y l Hy _ IHl]; [cbn; lra|].
    rewrite fold_sum_cons. lra. }
  constructor; [lra|]. apply IH. lra.
Qed.

Lemma div_ge (a b c : R) : 0 < c -> a * c <= b -> a <= b / c.
Proof.
  intros Hc H. apply (Rmult_le_reg_r c); [exact Hc|].
  unfold Rdiv. rewrite Rmult_assoc, Rinv_l by lra. lra.
Qed.

Lemma div_le (a b c : R) : 0 < c -> a <= b * c -> a / c <= b.
Proof.
  intros Hc H. apply (Rmult_le_reg_r c); [exact Hc|].
  unfold Rdiv. rewrite Rmult_assoc, Rinv_l by lra. lra.
Qed.

Lemma fold_sum_nonneg (g : R -> R) (l : list R) :
  Forall (fun b => 0 <= g b) l -> 0 <= fold_left (fun a b => a + g b) l 0.
Proof.
  induction 1 as [|x l Hx _ IH]; [cbn; lra|].
  rewrite fold_sum_cons. lra.
Qed.

Lemma INR_length_pos {A : Type} (l : list A) : l <> [] -> 0 < INR (length l).
Proof.
  intro H. destruct l; [congruence|]. apply lt_0_INR. simpl. lia.
Qed.

Lemma stats_mean (nums : list R) :
  mean (stats nums) =
  fold_left (fun a b => a + b) nums 0 / INR (length nums).
Proof. reflexivity. Qed.

Lemma stats_std (nums : list R) :
  std (stats nums) =
  sqrt (fold_left (fun a b => a + (b - mean (stats nums)) *
                                  (b - mean (stats nums))) nums 0 /
        INR (length nums)).
Proof. reflexivity. Qed.

(** X21: over samples that all lie between [lo] and [hi], and are not none,
    the mean lies between [lo] and [hi] and the standard deviation between 0
    and [hi - lo]; so samples that are all equal to [c] have mean [c] and
    deviation 0. *)
Theorem X21_stats_within_the_samples (nums : list R) (lo hi : R) :
  nums <> [] -> Forall (fun b => lo <= b <= hi) nums ->
  n (stats nums) = length nums /\
  lo <= mean (stats nums) <= hi /\
  0 <= std (stats nums) <= hi - lo.
Proof.
  intros Hne Hall. split; [reflexivity|].
  pose proof (INR_length_pos nums Hne) as Hn.
  assert (Hmean : lo <= mean (stats nums) <= hi).
  { rewrite stats_mean.
    pose proof (fold_sum_bounds (fun b => b) lo hi nums Hall) as Hb.
    cbn beta in Hb. split.
    - apply div_ge; [exact Hn|]. lra.
    - apply div_le; [exact Hn|]. lra. }
  split; [exact Hmean|]. split; [apply sqrt_pos|].
  rewrite stats_std. set (m := mean (stats nums)) in *.
  assert (Hlohi : 0 <= hi - lo) by lra.
  rewrite <- (sqrt_square (hi - lo) Hlohi). apply sqrt_le_1_alt.
  apply div_le; [exact Hn|].
  pose proof (fold_sum_bounds (fun b => (b - m) * (b - m)) 0
                ((hi - lo) * (hi - lo)) nums) as Hb.
  cbn beta in Hb. rewrite Rmult_comm. apply Hb.
  eapply Forall_impl; [|exact Hall]. intros b Hbnd. cbn beta in Hbnd.
  pose proof (Rle_0_sqr (b - m)) as Hsq. unfold Rsqr in Hsq.
  pose proof (Rmult_le_pos (hi - lo - (b - m)) (hi - lo + (b - m))
                ltac:(lra) ltac:(lra)).
  lra.
Qed.

Lemma X21_stats_within_the_samples_witness :
  n (stats [3; 5; 4]) = length [3; 5; 4] /\
  3 <= mean (stats [3; 5; 4]) <= 5 /\
  0 <= std (stats [3; 5; 4]) <= 5 - 3.
Proof.
  apply (X21_stats_within_the_samples [3; 5; 4] 3 5).
  - discriminate.
  - repeat constructor; lra.
Defined.

(** X22: the standard deviation of samples, not none, is zero exactly when
    every sample equals the mean. *)
Theorem X22_stats_zero_deviation (nums : list R) :
  nums <> [] ->
  (std (stats nums) = 0 <-> Forall (fun b => b = mean (stats nums)) nums).
Proof.
  intro Hne. pose proof (INR_length_pos nums Hne) as Hn.
  rewrite stats_std. set (m := mean (stats nums)).
  set (sq := fold_left (fun a b => a + (b - m) * (b - m)) nums 0).
  assert (Hsq : 0 <= sq).
  { apply (fold_sum_nonneg (fun b => (b - m) * (b - m))).
    apply Forall_forall. intros b _. apply Rle_0_sqr. }
  split.
  - intro Hstd. apply sqrt_eq_0 in Hstd;
      [|apply div_ge; [exact Hn | lra]].
    assert (Hzero : sq = 0).
    { apply Rmult_eq_compat_r with (r := INR (length nums)) in Hstd.
      unfold Rdiv in Hstd. rewrite Rmult_assoc, Rinv_l in Hstd by lra. lra. }
    apply fold_sum_zero in Hzero;
      [|apply Forall_forall; intros b _; apply Rle_0_sqr].
    eapply Forall_impl; [|exact Hzero]. intros b Hb. cbn beta in Hb.
    apply Rmult_integral in Hb. lra.
  - intro Hall.
    assert (Hzero : sq = 0).
    { unfold sq. rewrite (fold_sum_ext _ (fun _ => 0)).
      - pose proof (fold_sum_bounds (fun _ => 0) 0 0 nums) as Hb.
        assert (Forall (fun _ : R => 0 <= 0 <= 0) nums)
          by (apply Forall_forall; intros; lra).
        apply Hb in H. lra.
      - eapply Forall_impl; [|exact Hall]. intros b ->. ring. }
    rewrite Hzero. unfold Rdiv. rewrite Rmult_0_l. apply sqrt_0.
Qed.

Lemma X22_stats_zero_deviation_witness :
  std (stats [7; 7]) = 0 <-> Forall (fun b => b = mean (stats [7; 7])) [7; 7].
Proof.
  apply (X22_stats_zero_deviation [7; 7]). discriminate.
Defined.

(** X23: a change of unit or of origin of the samples, [b] to [k * b + c],
    takes the mean [m] to [k * m + c] and the standard deviation [s] to
    [|k| * s]: the statistics of the times in milliseconds are the
    statistics of the times in nanoseconds, converted. *)
Theorem X23_stats_of_converted_samples (nums : list R) (k c : R) :
  nums <> [] ->
  let converted := stats (map (fun b => k * b + c) nums) in
  n converted = n (stats nums) /\
  mean converted = k * mean (stats nums) + c /\
  std converted = Rabs k * std (stats nums).
Proof.
  intros Hne converted. pose proof (INR_length_pos nums Hne) as Hn.
  split; [apply length_map|].
  assert (Hmean : mean converted = k * mean (stats nums) + c).
  { unfold converted. rewrite !stats_mean, length_map.
    pose proof (fold_sum_map (fun x => x) (fun b => k * b + c) nums) as Hm.
    cbn beta in Hm. rewrite Hm.
    pose proof (fold_sum_affine (fun x => x) k c nums) as Ha.
    cbn beta in Ha. rewrite Ha. field. lra. }
  split; [exact Hmean|].
  unfold converted in *. rewrite !stats_std, length_map.
  rewrite Hmean. set (m := mean (stats nums)).
  pose proof (fold_sum_map (fun x => (x - (k * m + c)) * (x - (k * m + c)))
                (fun b => k * b + c) nums) as Hm.
  cbn beta in Hm. rewrite Hm.
  rewrite (fold_sum_ext _ (fun b => k * k * ((b - m) * (b - m)) + 0))
    by (apply Forall_forall; intros b _; ring).
  pose proof (fold_sum_affine (fun b => (b - m) * (b - m)) (k * k) 0 nums)
    as Ha.
  cbn beta in Ha. rewrite Ha, Rmult_0_r, Rplus_0_r.
  set (sq := fold_left (fun a b => a + (b - m) * (b - m)) nums 0).
  assert (Hsq : 0 <= sq).
  { apply (fold_sum_nonneg (fun b => (b - m) * (b - m))).
    apply Forall_forall. intros b _. apply Rle_0_sqr. }
  replace (k * k * sq / INR (length nums))
    with (Rsqr k * (sq / INR (length nums))) by (unfold Rsqr; field; lra).
  rewrite sqrt_mult;
    [| apply Rle_0_sqr | apply div_ge; [exact Hn | lra]].
  now rewrite sqrt_Rsqr_abs.
Qed.

Lemma X23_stats_of_converted_samples_witness :
  let converted := stats (map (fun b => / 1000000 * b + 0) [3; 5; 4]) in
  n converted = n (stats [3; 5; 4]) /\
  mean converted = / 1000000 * mean (stats [3; 5; 4]) + 0 /\
  std converted = Rabs (/ 1000000) * std (stats [3; 5; 4]).
Proof.
  apply (X23_stats_of_converted_samples [3; 5; 4] (/ 1000000) 0).
  discriminate.
Defined.

(** * More on the projection *)

Lemma mercator_angle (lat : R) :
  -90 < lat < 90 ->
  0 < PI / 4 + lat * PI / 180 / 2 < PI / 2.
Proof. intro H. pose proof PI_RGT_0. split; nra. Qed.

Lemma R_earth_pos : 0 < R_earth.
Proof. unfold R_earth. lra. Qed.

(** X24: the projection keeps the order of the coordinates: further east is
    a larger [x], and, between the poles, further north is a larger [y]; so
    distinct geographic points between the poles have distinct
    projections. *)
Theorem X24_projection_is_monotone (lon1 lat1 lon2 lat2 : R) :
  -90 < lat1 < 90 -> -90 < lat2 < 90 ->
  (lon1 < lon2 ->
   fst (lonLatToMercator (lon1, lat1)) < fst (lonLatToMercator (lon2, lat2))) /\
  (lat1 < lat2 ->
   snd (lonLatToMercator (lon1, lat1)) < snd (lonLatToMercator (lon2, lat2))) /\
  (lonLatToMercator (lon1, lat1) = lonLatToMercator (lon2, lat2) ->
   lon1 = lon2 /\ lat1 = lat2).
Proof.
  intros H1 H2. pose proof PI_RGT_0 as Hpi. pose proof R_earth_pos as HR.
  assert (Hx : forall a b, a < b ->
            R_earth * (a * PI / 180) < R_earth * (b * PI / 180)).
  { intros a b Hab. apply Rmult_lt_compat_l; [exact HR|]. nra. }
  assert (Hy : forall a b, -90 < a < 90 -> -90 < b < 90 -> a < b ->
            R_earth * ln (tan (PI / 4 + a * PI / 180 / 2)) <
            R_earth * ln (tan (PI / 4 + b * PI / 180 / 2))).
  { intros a b Ha Hb Hab. apply Rmult_lt_compat_l; [exact HR|].
    pose proof (mercator_angle a Ha). pose proof (mercator_angle b Hb).
    apply ln_increasing; [apply tan_gt_0; lra|].
    apply tan_increasing; nra. }
  unfold lonLatToMercator. cbn [fst snd].
  split; [apply Hx|]. split; [apply Hy; assumption|].
  intro Heq. injection Heq as Heqx Heqy. split.
  - destruct (Rtotal_order lon1 lon2) as [Hlt|[Heq|Hgt]]; [|exact Heq|].
    + pose proof (Hx _ _ Hlt). lra.
    + pose proof (Hx _ _ Hgt). lra.
  - destruct (Rtotal_order lat1 lat2) as [Hlt|[Heq|Hgt]]; [|exact Heq|].
    + pose proof (Hy _ _ H1 H2 Hlt). lra.
    + pose proof (Hy _ _ H2 H1 Hgt). lra.
Qed.

Lemma X24_projection_is_monotone_witness :
  (11 < 12 ->
   fst (lonLatToMercator (11, 48)) < fst (lonLatToMercator (12, 49))) /\
  (48 < 49 ->
   snd (lonLatToMercator (11, 48)) < snd (lonLatToMercator (12, 49))) /\
  (lonLatToMercator (11, 48) = lonLatToMercator (12, 49) ->
   11 = 12 /\ 48 = 49).
Proof.
  apply (X24_projection_is_monotone 11 48 12 49); lra.
Defined.

Lemma tan_complement (v : R) :
  0 < v < PI / 2 -> tan (PI / 2 - v) = / tan v.
Proof.
  intro Hv. unfold tan. rewrite sin_shift, cos_shift.
  assert (0 < sin v) by (apply sin_gt_0; lra).
  assert (0 < cos v) by (apply cos_gt_0; lra).
  field. split; lra.
Qed.

(** X25: the projection is odd: between the poles, the mirror image of a
    geographic point through the origin is projected on the mirror image of
    its projection. *)
Theorem X25_projection_is_odd (lon lat : R) :
  -90 < lat < 90 ->
  lonLatToMercator (- lon, - lat) =
  (- fst (lonLatToMercator (lon, lat)), - snd (lonLatToMercator (lon, lat))).
Proof.
  intro Hlat. unfold lonLatToMercator. cbn [fst snd].
  pose proof (mercator_angle lat Hlat) as Hv.
  f_equal; [field|].
  replace (PI / 4 + - lat * PI / 180 / 2)
    with (PI / 2 - (PI / 4 + lat * PI / 180 / 2)) by field.
  rewrite tan_complement by exact Hv.
  rewrite ln_Rinv by (apply tan_gt_0; lra). ring.
Qed.

Lemma X25_projection_is_odd_witness :
  lonLatToMercator (- 11, - 48) =
  (- fst (lonLatToMercator (11, 48)), - snd (lonLatToMercator (11, 48))).
Proof. apply (X25_projection_is_odd 11 48). lra. Defined.

(** X26: between the poles the radius handed to the tree search is at least
    the radius in meters it corrects, and it is that radius at the
    equator. *)
Theorem X26_projected_radius_not_smaller (radiusMeters centerLat : R) :
  -90 < centerLat < 90 -> 0 <= radiusMeters ->
  radiusMeters <= projectedRadius radiusMeters centerLat /\
  projectedRadius radiusMeters 0 = radiusMeters.
Proof.
  intros Hlat Hr. unfold projectedRadius. pose proof PI_RGT_0 as Hpi. split.
  - assert (Hc : 0 < cos (centerLat * PI / 180))
      by (apply cos_gt_0; nra).
    pose proof (COS_bound (centerLat * PI / 180)) as [_ Hle].
    apply div_ge; [exact Hc|]. nra.
  - replace (0 * PI / 180) with 0 by field. rewrite cos_0. field.
Qed.

Lemma X26_projected_radius_not_smaller_witness :
  1500 <= projectedRadius 1500 48 /\ projectedRadius 1500 0 = 1500.
Proof. apply (X26_projected_radius_not_smaller 1500 48); lra. Defined.

End GeoFacts.

(** * Visits and the radius *)

Lemma dfsVisited_mono (target : point) (radius radius' : Q) (node : KDNode) :
  (radius <= radius')%Q ->
  forall depth,
    (dfsVisited target radius node depth 0 <=
     dfsVisited target radius' node depth 0)%nat.
Proof.
  intro Hle.
  induction node as [|p axis l IHl r IHr]; intro depth; [apply Nat.le_refl|].
  cbn [dfsVisited]. cbv zeta.
  set (d := (coord target (depth mod length target) -
             coord p (depth mod length target))%Q).
  pose proof (IHl (depth + 1)%nat). pose proof (IHr (depth + 1)%nat).
  assert (Himp : Qle_bool (Qabs d) radius = true ->
                 Qle_bool (Qabs d) radius' = true).
  { rewrite !Qle_bool_iff. intro Hd. lra. }
  destruct (Qle_bool (Qabs d) radius) eqn:E1;
    [rewrite (Himp eq_refl)|];
    destruct (ltb0 d); try destruct (Qle_bool (Qabs d) radius');
    repeat match goal with
      | |- context [dfsVisited target ?rad ?t ?dp ?acc] =>
          lazymatch acc with
          | O => fail
          | _ => rewrite (dfsVisited_acc target rad t dp acc)
          end
      end; lia.
Qed.

(** X27: a larger radius never makes the search visit fewer nodes, whatever
    the tree and the target. *)
Theorem X27_larger_radius_visits_no_fewer (root : KDNode) (target : point)
  (radius radius' : Q) :
  (radius <= radius')%Q ->
  (visited (rangeSearchTrace root target radius) <=
   visited (rangeSearchTrace root target radius'))%nat.
Proof.
  intro Hle.
  destruct (rangeSearchTrace_steps root target radius) as (_ & _ & H1 & _).
  destruct (rangeSearchTrace_steps root target radius') as (_ & _ & H2 & _).
  rewrite H1, H2. apply dfsVisited_mono, Hle.
Qed.

Lemma X27_larger_radius_visits_no_fewer_witness :
  le
    (visited
       (rangeSearchTrace (buildKDTree [[0; 0]; [10; 0]; [0; 10]] 0) [1; 1] 2))
    (visited
       (rangeSearchTrace (buildKDTree [[0; 0]; [10; 0]; [0; 10]] 0) [1; 1] 20)).
Proof.
  apply (X27_larger_radius_visits_no_fewer
           (buildKDTree [[0; 0]; [10; 0]; [0; 10]] 0) [1; 1] 2 20).
  discriminate.
Defined.

(** * The two squared distances *)

(** X28: the loop [distanceSq] of the components (and [distanceSquared] of
    the benchmark script, the same loop) computes what the [reduce] of
    [distanceSquared] in [KdTree.ts] computes, for all points: the same
    additions in the same order. *)
Theorem X28_loop_and_reduce_distances_agree (a b : point) :
  distanceSq a b = distanceSquared a b.
Proof.
  unfold distanceSq, distanceSquared.
  rewrite distanceSq_loop_reduce by lia. reflexivity.
Qed.

(** * The random points of the benchmark *)

(** X29: a point [randInCircle] draws around a center between the poles lies
    in the disk it is drawn for: with the lengths of a degree the function
    itself uses ([111320] meters north, [111320 * cos(lat)] meters east),
    its offset from the center is [sqrt(random1) * meters] long, which is
    at most [meters]. *)
Theorem X29_randInCircle_within_the_disk (random1 random2 lat lon meters : R) :
  (0 <= random1 < 1)%R -> (-90 < lat < 90)%R -> (0 <= meters)%R ->
  let p := randInCircle random1 random2 lat lon meters in
  let north := ((fst p - lat) * 111320)%R in
  let east := ((snd p - lon) * (111320 * cos ((lat * PI) / 180)))%R in
  (north * north + east * east = random1 * (meters * meters))%R /\
  (north * north + east * east <= meters * meters)%R.
Proof.
  intros Hu Hlat Hm p north east.
  pose proof PI_RGT_0 as Hpi.
  assert (Hc : (0 < cos (lat * PI / 180))%R) by (apply cos_gt_0; nra).
  set (r := (sqrt random1 * meters)%R).
  set (theta := (random2 * 2 * PI)%R).
  assert (Hn : north = (r * cos theta)%R).
  { unfold north, p, randInCircle. cbn [fst]. fold r theta. field. }
  assert (He : east = (r * sin theta)%R).
  { unfold east, p, randInCircle. cbn [snd]. fold r theta. field. lra. }
  assert (Hr : (r * r = random1 * (meters * meters))%R).
  { unfold r.
    replace (sqrt random1 * meters * (sqrt random1 * meters))%R
      with (sqrt random1 * sqrt random1 * (meters * meters))%R by ring.
    rewrite sqrt_sqrt by lra. reflexivity. }
  assert (Hsum : (north * north + east * east = random1 * (meters * meters))%R).
  { rewrite Hn, He, <- Hr.
    pose proof (sin2_cos2 theta) as Hsc. unfold Rsqr in Hsc.
    replace (r * cos theta * (r * cos theta) + r * sin theta * (r * sin theta))%R
      with (r * r * (sin theta * sin theta + cos theta * cos theta))%R by ring.
    rewrite Hsc. ring. }
  split; [exact Hsum|]. rewrite Hsum.
  assert (0 <= meters * meters)%R by (apply Rmult_le_pos; assumption).
  nra.
Qed.

Lemma X29_randInCircle_within_the_disk_witness :
  let p := randInCircle (/ 4) (/ 2) 48 11 4500 in
  let north := ((fst p - 48) * 111320)%R in
  let east := ((snd p - 11) * (111320 * cos ((48 * PI) / 180)))%R in
  (north * north + east * east = / 4 * (4500 * 4500))%R /\
  (north * north + east * east <= 4500 * 4500)%R.
Proof.
  apply (X29_randInCircle_within_the_disk (/ 4) (/ 2) 48 11 4500); lra.
Defined.

(** * Radius zero *)



